(** * The response screener of pkg/ipfs/screener.go

    A shallow embedding of [Screener.ScreenResponse] and of the five filter
    passes it runs, followed by the properties of the screener that the
    specification states.

    Go values are embedded as follows.
    - [int64] is a [Z]; the only arithmetic the screener does on it is
      comparison, which does not wrap.
    - a [string] is a [string], a [[]byte] is a list of bytes, a slice is a
      list (the nil slice and the empty slice are both [[]]; the screener
      only appends to slices and ranges over them).
    - a [map] is an [option (gmap K V)]: [None] is the nil map, which can be
      read and ranged over but not assigned to (assignment panics).
    - the objects reached through the arguments of [ScreenResponse] and its
      freshly allocated response live in a [Store]; every pass is a
      computation over the store that either returns a value or panics. *)

From Stdlib Require Import ZArith.
From Stdlib.Strings Require Byte.
From stdpp Require Import base option list gmap strings fin_maps.

Definition bytes : Type := list Byte.byte.

(** ** Client filters (StreamFilters)

    The declarations of [StreamFilters] and of its five filters are not in
    the source file: each record below has the fields the screener reads,
    with the types of the specification's data model (the address, topic
    and key sets are the [[]string] slices the checks range over). *)

(** Modelled from the spec: [HeaderFilter], [{off, startBlock, endBlock,
    includeUncles}]. *)
Module HeaderFilter.
Record t : Type := mk
  { Off : bool; StartingBlock : Z; EndingBlock : Z; Uncles : bool }.
End HeaderFilter.

(** Modelled from the spec: [TrxFilter], [{off, startBlock, endBlock,
    srcAddresses, dstAddresses}]. *)
Module TrxFilter.
Record t : Type := mk
  { Off : bool; StartingBlock : Z; EndingBlock : Z;
    Src : list string; Dst : list string }.
End TrxFilter.

(** Modelled from the spec: [ReceiptFilter], [{off, startBlock, endBlock,
    topic0s}]. *)
Module ReceiptFilter.
Record t : Type := mk
  { Off : bool; StartingBlock : Z; EndingBlock : Z; Topic0s : list string }.
End ReceiptFilter.

(** Modelled from the spec: [StateFilter], [{off, startBlock, endBlock,
    addresses, includeIntermediateNodes}]. *)
Module StateFilter.
Record t : Type := mk
  { Off : bool; StartingBlock : Z; EndingBlock : Z;
    Addresses : list string; IntermediateNodes : bool }.
End StateFilter.

(** Modelled from the spec: [StorageFilter], [{off, startBlock, endBlock,
    addresses, storageKeys}]. *)
Module StorageFilter.
Record t : Type := mk
  { Off : bool; StartingBlock : Z; EndingBlock : Z;
    Addresses : list string; StorageKeys : list string }.
End StorageFilter.

(** Modelled from the spec: [StreamFilters], one independent filter per
    category. *)
Record StreamFilters : Type := mkStreamFilters
  { HeaderFilter : HeaderFilter.t;
    TrxFilter : TrxFilter.t;
    ReceiptFilter : ReceiptFilter.t;
    StateFilter : StateFilter.t;
    StorageFilter : StorageFilter.t }.

(** ** Block payload (IPLDPayload)

    The declarations of [IPLDPayload] and of the records it holds are not
    in the source file either: the fields are those the screener reads. *)

(** Modelled from the spec: the metadata of a transaction, [{src, dst}]. *)
Module TrxMetaData.
Record t : Type := mk { Src : string; Dst : string }.
End TrxMetaData.

(** Modelled from the spec: the metadata of a receipt, [{topic0s}]. *)
Module ReceiptMetaData.
Record t : Type := mk { Topic0s : list string }.
End ReceiptMetaData.

(** Modelled from the spec: a state-trie node, [{leaf, value}]. *)
Module StateNode.
Record t : Type := mk { Value : bytes; Leaf : bool }.
End StateNode.

(** Modelled from the spec: a storage-trie node, [{key, value}]. *)
Module StorageNode.
Record t (Hash : Type) : Type := mk { Key : Hash; Value : bytes }.
Arguments mk {Hash} _ _.
Arguments Key {Hash} _.
Arguments Value {Hash} _.
End StorageNode.

(** Modelled from the spec: the block body, [{uncles, transactions}]. *)
Module Body.
Record t (Header Transaction : Type) : Type := mk
  { Uncles : list Header; Transactions : list Transaction }.
Arguments mk {Header Transaction} _ _.
Arguments Uncles {Header Transaction} _.
Arguments Transactions {Header Transaction} _.
End Body.

(** ** Collaborators

    Everything the screener calls but does not define: the chain objects
    and their RLP encoders (go-ethereum), and the key derivations
    [HexToAddress], [AddressToKey] and [HexToKey]. An encoder either yields
    the encoded bytes or fails with an [error].

    [Hash] stands for [common.Hash], a 32-byte array: comparing the
    [Bytes()] of two hashes with [bytes.Equal] is equality of the arrays,
    here the decidable equality of [Hash]. *)

Class Collaborators : Type := mkCollaborators
  { Hash : Type;
    Hash_eq_dec :: EqDecision Hash;
    Hash_countable :: Countable Hash;
    Address : Type;
    Header : Type;
    Transaction : Type;
    Receipt : Type;
    error : Type;
    (* rlp.EncodeToBytes(uncle) *)
    EncodeToBytes : Header → bytes + error;
    (* trx.EncodeRLP(trxBuffer) followed by trxBuffer.Bytes() *)
    Transaction_EncodeRLP : Transaction → bytes + error;
    (* receipt.EncodeRLP(receiptBuffer) followed by receiptBuffer.Bytes() *)
    Receipt_EncodeRLP : Receipt → bytes + error;
    HexToAddress : string → Address;
    AddressToKey : Address → Hash;
    HexToKey : string → Hash }.

(** ** Pure helpers of the screener *)

(** [big.Int.Int64]: the low 64 bits of the magnitude read as an [int64],
    negated (in [int64]) when the number is negative. *)
Definition int64_of_uint64 (u : Z) : Z :=
  if (u <? 2 ^ 63)%Z then u else (u - 2 ^ 64)%Z.

Definition int64_neg (v : Z) : Z :=
  if (v =? - 2 ^ 63)%Z then v else (- v)%Z.

Definition Int64 (x : Z) : Z :=
  let v := int64_of_uint64 (Z.abs x mod 2 ^ 64) in
  if (x <? 0)%Z then int64_neg v else v.

Definition checkRange (start end_ actual : Z) : bool :=
  if ((end_ <=? 0)%Z || (end_ >=? actual)%Z) && (start <=? actual)%Z
  then true
  else false.

Definition checkTransactions (wantedSrc wantedDst : list string)
    (actualSrc actualDst : string) : bool :=
  if (length wantedDst =? 0)%nat && (length wantedSrc =? 0)%nat then true
  else if existsb (λ src, String.eqb src actualSrc) wantedSrc then true
  else if existsb (λ dst, String.eqb dst actualDst) wantedDst then true
  else false.

Definition checkReceipts (wantedTopics actualTopics : list string) : bool :=
  if (length wantedTopics =? 0)%nat then true
  else if existsb (λ wantedTopic,
            existsb (λ actualTopic, String.eqb wantedTopic actualTopic)
                    actualTopics) wantedTopics then true
  else false.

(** Run-time panics the screener can raise. *)
Inductive panic : Type :=
  | NilMapAssignment            (* assignment to entry in nil map *)
  | IndexOutOfRange (i len : nat).  (* index out of range [i] with length len *)

Inductive res (A : Type) : Type :=
  | Val (a : A)
  | Panic (p : panic).
Arguments Val {A} _.
Arguments Panic {A} _.

Section Screener.
Context `{C : Collaborators}.

Definition checkNodeKeys (wantedKeys : list Hash) (actualKey : Hash) : bool :=
  if (length wantedKeys =? 0)%nat then true
  else if existsb (λ key, bool_decide (key = actualKey)) wantedKeys then true
  else false.

(** Modelled from the spec: [IPLDPayload], one decoded block. The block
    number is the [*big.Int] the screener calls [Int64()] on (taken as not
    nil), the two metadata arrays are slices indexed by position, and the
    two node collections are Go maps that the screener only ranges over. *)
Record IPLDPayload : Type := mkIPLDPayload
  { HeaderRLP : bytes;
    BlockNumber : Z;
    BlockBody : Body.t Header Transaction;
    TrxMetaData : list TrxMetaData.t;
    Receipts : list Receipt;
    ReceiptMetaData : list ReceiptMetaData.t;
    StateNodes : gmap Hash StateNode.t;
    StorageNodes : gmap Hash (list (StorageNode.t Hash)) }.

(** Modelled from the spec: the declaration of [ResponsePayload] is not in
    the source file. The spec lists four lists of byte strings and two
    mappings; [filterState] and [filterStorage] fix the mappings to be Go
    maps from [common.Hash], whose zero value is the nil map. *)
Record ResponsePayload : Type := mkResponsePayload
  { HeadersRlp : list bytes;
    UnclesRlp : list bytes;
    TransactionsRlp : list bytes;
    ReceiptsRlp : list bytes;
    StateNodesRlp : option (gmap Hash bytes);
    StorageNodesRlp : option (gmap Hash (gmap Hash bytes)) }.

(** [new(ResponsePayload)]: every field has its zero value. *)
Definition new_ResponsePayload : ResponsePayload :=
  mkResponsePayload [] [] [] [] None None.

Definition set_HeadersRlp (v : list bytes) (r : ResponsePayload) :=
  mkResponsePayload v (UnclesRlp r) (TransactionsRlp r) (ReceiptsRlp r)
    (StateNodesRlp r) (StorageNodesRlp r).
Definition set_UnclesRlp (v : list bytes) (r : ResponsePayload) :=
  mkResponsePayload (HeadersRlp r) v (TransactionsRlp r) (ReceiptsRlp r)
    (StateNodesRlp r) (StorageNodesRlp r).
Definition set_TransactionsRlp (v : list bytes) (r : ResponsePayload) :=
  mkResponsePayload (HeadersRlp r) (UnclesRlp r) v (ReceiptsRlp r)
    (StateNodesRlp r) (StorageNodesRlp r).
Definition set_ReceiptsRlp (v : list bytes) (r : ResponsePayload) :=
  mkResponsePayload (HeadersRlp r) (UnclesRlp r) (TransactionsRlp r) v
    (StateNodesRlp r) (StorageNodesRlp r).
Definition set_StateNodesRlp (v : option (gmap Hash bytes))
    (r : ResponsePayload) :=
  mkResponsePayload (HeadersRlp r) (UnclesRlp r) (TransactionsRlp r)
    (ReceiptsRlp r) v (StorageNodesRlp r).
Definition set_StorageNodesRlp (v : option (gmap Hash (gmap Hash bytes)))
    (r : ResponsePayload) :=
  mkResponsePayload (HeadersRlp r) (UnclesRlp r) (TransactionsRlp r)
    (ReceiptsRlp r) (StateNodesRlp r) v.

(** ** The store and the monad of the passes *)

(** The three objects a pass can reach: the filters behind the
    [*StreamFilters] pointer, the payload (whose slices and maps are shared
    with the caller) and the response behind the [*ResponsePayload]
    pointer. *)
Record Store : Type := mkStore
  { filters : StreamFilters;
    payload : IPLDPayload;
    response : ResponsePayload }.

Definition M (A : Type) : Type := Store → res A * Store.

Definition ret {A} (a : A) : M A := λ s, (Val a, s).

Definition bind {A B} (m : M A) (k : A → M B) : M B :=
  λ s, match m s with
       | (Val a, s') => k a s'
       | (Panic p, s') => (Panic p, s')
       end.

Definition raise {A} (p : panic) : M A := λ s, (Panic p, s).

Definition get : M Store := λ s, (Val s, s).

(** The only writes in the source go through [response]. *)
Definition with_response (f : ResponsePayload → ResponsePayload) (s : Store)
    : Store :=
  mkStore (filters s) (payload s) (f (response s)).

Definition modify_response (f : ResponsePayload → ResponsePayload) : M unit :=
  λ s, (Val tt, with_response f s).

Notation "'let!' x ':=' m 'in' k" := (bind m (λ x, k))
  (at level 10, x name, m at level 100, k at level 200, only parsing).
Notation "m '>>' k" := (bind m (λ _, k))
  (at level 100, k at level 200, right associativity, only parsing).

(** [l[i]] on a slice: panics when [i] is not a position of [l]. *)
Definition index {A} (l : list A) (i : nat) : M A :=
  match l !! i with
  | Some a => ret a
  | None => raise (IndexOutOfRange i (length l))
  end.

(** [response.StateNodesRlp[key] = v] *)
Definition assign_StateNodesRlp (key : Hash) (v : bytes) : M unit :=
  let! s := get in
  match StateNodesRlp (response s) with
  | None => raise NilMapAssignment
  | Some m => modify_response (set_StateNodesRlp (Some (<[key := v]> m)))
  end.

(** [response.StorageNodesRlp[stateKey] = v] *)
Definition assign_StorageNodesRlp (stateKey : Hash) (v : gmap Hash bytes)
    : M unit :=
  let! s := get in
  match StorageNodesRlp (response s) with
  | None => raise NilMapAssignment
  | Some m => modify_response (set_StorageNodesRlp (Some (<[stateKey := v]> m)))
  end.

(** [response.StorageNodesRlp[stateKey][key] = v]: the inner map is read
    from the outer one (a missing entry, or a nil outer map, reads as the
    nil map) and assigned to; Go maps are references, so the assignment is
    seen through the outer map. *)
Definition assign_StorageNodesRlp_entry (stateKey key : Hash) (v : bytes)
    : M unit :=
  let! s := get in
  match StorageNodesRlp (response s) with
  | None => raise NilMapAssignment
  | Some m =>
      match m !! stateKey with
      | None => raise NilMapAssignment
      | Some inner =>
          modify_response
            (set_StorageNodesRlp (Some (<[stateKey := <[key := v]> inner]> m)))
      end
  end.

(** ** The five passes *)

(** [for _, uncle := range payload.BlockBody.Uncles { ... }] *)
Fixpoint filterHeaders_uncles (uncles : list Header) : M (option error) :=
  match uncles with
  | [] => ret None
  | uncle :: rest =>
      match EncodeToBytes uncle with
      | inr err => ret (Some err)
      | inl uncleRlp =>
          modify_response (λ r, set_UnclesRlp (UnclesRlp r ++ [uncleRlp]) r) >>
          filterHeaders_uncles rest
      end
  end.

Definition filterHeaders : M (option error) :=
  let! s := get in
  let streamFilters := filters s in
  let payload := payload s in
  if negb (HeaderFilter.Off (HeaderFilter streamFilters))
     && checkRange (HeaderFilter.StartingBlock (HeaderFilter streamFilters))
                   (HeaderFilter.EndingBlock (HeaderFilter streamFilters))
                   (Int64 (BlockNumber payload))
  then
    modify_response
      (λ r, set_HeadersRlp (HeadersRlp r ++ [HeaderRLP payload]) r) >>
    if HeaderFilter.Uncles (HeaderFilter streamFilters)
    then filterHeaders_uncles (Body.Uncles (BlockBody payload))
    else ret None
  else ret None.

(** [for i, trx := range payload.BlockBody.Transactions { ... }], from
    position [i] on. *)
Fixpoint filterTransactions_range (i : nat) (trxs : list Transaction)
    : M (option error) :=
  match trxs with
  | [] => ret None
  | trx :: rest =>
      let! s := get in
      let! meta := index (TrxMetaData (payload s)) i in
      if checkTransactions (TrxFilter.Src (TrxFilter (filters s)))
                           (TrxFilter.Dst (TrxFilter (filters s)))
                           (TrxMetaData.Src meta) (TrxMetaData.Dst meta)
      then
        match Transaction_EncodeRLP trx with
        | inr err => ret (Some err)
        | inl trxBytes =>
            modify_response
              (λ r, set_TransactionsRlp (TransactionsRlp r ++ [trxBytes]) r) >>
            filterTransactions_range (S i) rest
        end
      else filterTransactions_range (S i) rest
  end.

Definition filterTransactions : M (option error) :=
  let! s := get in
  let streamFilters := filters s in
  let payload := payload s in
  if negb (TrxFilter.Off (TrxFilter streamFilters))
     && checkRange (TrxFilter.StartingBlock (TrxFilter streamFilters))
                   (TrxFilter.EndingBlock (TrxFilter streamFilters))
                   (Int64 (BlockNumber payload))
  then filterTransactions_range 0 (Body.Transactions (BlockBody payload))
  else ret None.

(** [for i, receipt := range payload.Receipts { ... }], from position [i]
    on. *)
Fixpoint filerReceipts_range (i : nat) (receipts : list Receipt)
    : M (option error) :=
  match receipts with
  | [] => ret None
  | receipt :: rest =>
      let! s := get in
      let! meta := index (ReceiptMetaData (payload s)) i in
      if checkReceipts (ReceiptFilter.Topic0s (ReceiptFilter (filters s)))
                       (ReceiptMetaData.Topic0s meta)
      then
        match Receipt_EncodeRLP receipt with
        | inr err => ret (Some err)
        | inl receiptBytes =>
            modify_response
              (λ r, set_ReceiptsRlp (ReceiptsRlp r ++ [receiptBytes]) r) >>
            filerReceipts_range (S i) rest
        end
      else filerReceipts_range (S i) rest
  end.

Definition filerReceipts : M (option error) :=
  let! s := get in
  let streamFilters := filters s in
  let payload := payload s in
  if negb (ReceiptFilter.Off (ReceiptFilter streamFilters))
     && checkRange (ReceiptFilter.StartingBlock (ReceiptFilter streamFilters))
                   (ReceiptFilter.EndingBlock (ReceiptFilter streamFilters))
                   (Int64 (BlockNumber payload))
  then filerReceipts_range 0 (Receipts payload)
  else ret None.

(** The loops that turn the requested addresses and storage keys into trie
    keys, appending one key per entry. *)
Definition addressKeys (addrs : list string) : list Hash :=
  map (λ addr, AddressToKey (HexToAddress addr)) addrs.

Definition storageKeys (stores : list string) : list Hash :=
  map (λ store, HexToKey store) stores.

(** [for key, stateNode := range payload.StateNodes { ... }] over the
    entries in the order the range visits them. *)
Fixpoint filterState_range (keyFilters : list Hash) (intermediateNodes : bool)
    (nodes : list (Hash * StateNode.t)) : M unit :=
  match nodes with
  | [] => ret tt
  | (key, stateNode) :: rest =>
      (if checkNodeKeys keyFilters key
       then if StateNode.Leaf stateNode || intermediateNodes
            then assign_StateNodesRlp key (StateNode.Value stateNode)
            else ret tt
       else ret tt) >>
      filterState_range keyFilters intermediateNodes rest
  end.

Definition filterState : M (option error) :=
  modify_response (set_StateNodesRlp (Some ∅)) >>
  let! s := get in
  let streamFilters := filters s in
  let payload := payload s in
  if negb (StateFilter.Off (StateFilter streamFilters))
     && checkRange (StateFilter.StartingBlock (StateFilter streamFilters))
                   (StateFilter.EndingBlock (StateFilter streamFilters))
                   (Int64 (BlockNumber payload))
  then
    let keyFilters := addressKeys (StateFilter.Addresses (StateFilter streamFilters)) in
    filterState_range keyFilters
      (StateFilter.IntermediateNodes (StateFilter streamFilters))
      (map_to_list (StateNodes payload)) >>
    ret None
  else ret None.

(** [for _, storageNode := range storageNodes { ... }] *)
Fixpoint filterStorage_nodes (storageKeyFilters : list Hash) (stateKey : Hash)
    (storageNodes : list (StorageNode.t Hash)) : M unit :=
  match storageNodes with
  | [] => ret tt
  | storageNode :: rest =>
      (if checkNodeKeys storageKeyFilters (StorageNode.Key storageNode)
       then assign_StorageNodesRlp_entry stateKey
              (StorageNode.Key storageNode) (StorageNode.Value storageNode)
       else ret tt) >>
      filterStorage_nodes storageKeyFilters stateKey rest
  end.

(** [for stateKey, storageNodes := range payload.StorageNodes { ... }] over
    the entries in the order the range visits them. *)
Fixpoint filterStorage_range (stateKeyFilters storageKeyFilters : list Hash)
    (accounts : list (Hash * list (StorageNode.t Hash))) : M unit :=
  match accounts with
  | [] => ret tt
  | (stateKey, storageNodes) :: rest =>
      (if checkNodeKeys stateKeyFilters stateKey
       then assign_StorageNodesRlp stateKey ∅ >>
            filterStorage_nodes storageKeyFilters stateKey storageNodes
       else ret tt) >>
      filterStorage_range stateKeyFilters storageKeyFilters rest
  end.

Definition filterStorage : M (option error) :=
  let! s := get in
  let streamFilters := filters s in
  let payload := payload s in
  if negb (StorageFilter.Off (StorageFilter streamFilters))
     && checkRange (StorageFilter.StartingBlock (StorageFilter streamFilters))
                   (StorageFilter.EndingBlock (StorageFilter streamFilters))
                   (Int64 (BlockNumber payload))
  then
    let stateKeyFilters :=
      addressKeys (StorageFilter.Addresses (StorageFilter streamFilters)) in
    let storageKeyFilters :=
      storageKeys (StorageFilter.StorageKeys (StorageFilter streamFilters)) in
    filterStorage_range stateKeyFilters storageKeyFilters
      (map_to_list (StorageNodes payload)) >>
    ret None
  else ret None.

(** ** ScreenResponse *)

(** The body of [ScreenResponse] once [response] is allocated: the five
    passes in order, each error returned at once with a nil response. *)
Definition screen : M (option ResponsePayload * option error) :=
  let! err := filterHeaders in
  match err with
  | Some e => ret (None, Some e)
  | None =>
  let! err := filterTransactions in
  match err with
  | Some e => ret (None, Some e)
  | None =>
  let! err := filerReceipts in
  match err with
  | Some e => ret (None, Some e)
  | None =>
  let! err := filterState in
  match err with
  | Some e => ret (None, Some e)
  | None =>
  let! err := filterStorage in
  match err with
  | Some e => ret (None, Some e)
  | None =>
  let! s := get in
  ret (Some (response s), None)
  end end end end end.

(** [ScreenResponse streamFilters payload]: the outcome of the call (the
    pair Go returns, or a panic) and the store it leaves. *)
Definition ScreenResponse (streamFilters : StreamFilters)
    (payload : IPLDPayload)
    : res (option ResponsePayload * option error) * Store :=
  screen (mkStore streamFilters payload new_ResponsePayload).

End Screener.


(** ** A small instance to run the screener on

    Hashes and addresses are strings and the key derivations are the
    identity; a chain object is [Some] of its encoding, or [None] when its
    encoder fails. *)

Definition toy_encode (x : option bytes) : bytes + string :=
  match x with
  | Some b => inl b
  | None => inr "rlp: encoding failed"%string
  end.

Definition toy : Collaborators :=
  {| Hash := string;
     Address := string;
     Header := option bytes;
     Transaction := option bytes;
     Receipt := option bytes;
     error := string;
     EncodeToBytes := toy_encode;
     Transaction_EncodeRLP := toy_encode;
     Receipt_EncodeRLP := toy_encode;
     HexToAddress := λ s, s;
     AddressToKey := λ a, a;
     HexToKey := λ s, s |}.

Definition b1 : bytes := [Byte.x01].
Definition b2 : bytes := [Byte.x02].
Definition b3 : bytes := [Byte.x03].

(** Filters with every category switched off. *)
Definition filters_off : StreamFilters :=
  mkStreamFilters
    (HeaderFilter.mk true 0 0 false)
    (TrxFilter.mk true 0 0 [] [])
    (ReceiptFilter.mk true 0 0 [])
    (StateFilter.mk true 0 0 [] false)
    (StorageFilter.mk true 0 0 [] []).

(** Every category but storage is requested, for blocks 100 to 200. *)
Definition filters_on : StreamFilters :=
  mkStreamFilters
    (HeaderFilter.mk false 100 200 true)
    (TrxFilter.mk false 100 200 ["0xA"%string] ["0xB"%string])
    (ReceiptFilter.mk false 100 200 ["0x1"%string; "0x2"%string])
    (StateFilter.mk false 100 200 ["k1"%string; "k2"%string] false)
    (StorageFilter.mk true 0 0 [] []).

(** Only storage nodes are requested, of every account and every slot. *)
Definition filters_storage : StreamFilters :=
  mkStreamFilters
    (HeaderFilter.mk true 0 0 false)
    (TrxFilter.mk true 0 0 [] [])
    (ReceiptFilter.mk true 0 0 [])
    (StateFilter.mk true 0 0 [] false)
    (StorageFilter.mk false 0 0 [] []).

(** Block 150: two uncles, three transactions and two receipts with their
    metadata, two state nodes and one account with one storage node. *)
Definition payload150 : IPLDPayload (C := toy) :=
  mkIPLDPayload (C := toy)
    b1 150
    (Body.mk [Some b1; Some b2] [Some b1; Some b2; Some b3])
    [TrxMetaData.mk "0xA" "0xC"; TrxMetaData.mk "0xZ" "0xC";
     TrxMetaData.mk "0xZ" "0xB"]
    [Some b1; Some b2]
    [ReceiptMetaData.mk ["0x2"%string; "0x9"%string];
     ReceiptMetaData.mk ["0x3"%string]]
    (<["k1"%string := StateNode.mk b1 true]>
       (<["k2"%string := StateNode.mk b2 false]> ∅))
    (<["k1"%string := [StorageNode.mk "s1"%string b3]]> ∅).

(** Every category is requested, for every block, account and slot. *)
Definition filters_all : StreamFilters :=
  mkStreamFilters
    (HeaderFilter.mk false 0 0 true)
    (TrxFilter.mk false 0 0 [] [])
    (ReceiptFilter.mk false 0 0 [])
    (StateFilter.mk false 0 0 [] true)
    (StorageFilter.mk false 0 0 [] []).

(** The store a pass of [ScreenResponse filters_on payload150] starts in. *)
Definition store_on : Store (C := toy) :=
  mkStore (C := toy) filters_on payload150 (new_ResponsePayload (C := toy)).

(** The responses of [ScreenResponse] on [payload150] under [filters_off]
    and under [filters_on]. *)
Definition response_off : ResponsePayload (C := toy) :=
  mkResponsePayload (C := toy) [] [] [] [] (Some ∅) None.

Definition response_on : ResponsePayload (C := toy) :=
  mkResponsePayload (C := toy)
    [b1] [b1; b2] [b1; b3] [b1] (Some (<["k1"%string := b1]> ∅)) None.

(** ** Vocabulary of the statements *)

(** The items whose aligned metadata satisfies [P], in the order of the
    items. *)
Fixpoint selected {A B} (P : B → bool) (items : list A) (metas : list B)
    : list A :=
  match items, metas with
  | x :: items', m :: metas' =>
      if P m then x :: selected P items' metas' else selected P items' metas'
  | _, _ => []
  end.

(** [bs] are the encodings of [l], one by one and in order. *)
Definition encodings {A E} (enc : A → bytes + E) (l : list A)
    (bs : list bytes) : Prop :=
  Forall2 (λ x b, enc x = inl b) l bs.

(** Encoding a list front to back, stopping at the first failure: the
    encodings obtained and the failure, if any. *)
Fixpoint encode_list {A E} (enc : A → bytes + E) (l : list A)
    : list bytes * option E :=
  match l with
  | [] => ([], None)
  | x :: rest =>
      match enc x with
      | inr e => ([], Some e)
      | inl b => (b :: (encode_list enc rest).1, (encode_list enc rest).2)
      end
  end.

Section Vocabulary.
Context `{C : Collaborators}.

(** The gate of each pass: the category is enabled and the block number of
    the payload is in the range of its filter. *)
Definition headersWanted (sf : StreamFilters) (p : IPLDPayload) : bool :=
  negb (HeaderFilter.Off (HeaderFilter sf))
  && checkRange (HeaderFilter.StartingBlock (HeaderFilter sf))
                (HeaderFilter.EndingBlock (HeaderFilter sf))
                (Int64 (BlockNumber p)).

Definition transactionsWanted (sf : StreamFilters) (p : IPLDPayload) : bool :=
  negb (TrxFilter.Off (TrxFilter sf))
  && checkRange (TrxFilter.StartingBlock (TrxFilter sf))
                (TrxFilter.EndingBlock (TrxFilter sf))
                (Int64 (BlockNumber p)).

Definition receiptsWanted (sf : StreamFilters) (p : IPLDPayload) : bool :=
  negb (ReceiptFilter.Off (ReceiptFilter sf))
  && checkRange (ReceiptFilter.StartingBlock (ReceiptFilter sf))
                (ReceiptFilter.EndingBlock (ReceiptFilter sf))
                (Int64 (BlockNumber p)).

Definition stateWanted (sf : StreamFilters) (p : IPLDPayload) : bool :=
  negb (StateFilter.Off (StateFilter sf))
  && checkRange (StateFilter.StartingBlock (StateFilter sf))
                (StateFilter.EndingBlock (StateFilter sf))
                (Int64 (BlockNumber p)).

Definition storageWanted (sf : StreamFilters) (p : IPLDPayload) : bool :=
  negb (StorageFilter.Off (StorageFilter sf))
  && checkRange (StorageFilter.StartingBlock (StorageFilter sf))
                (StorageFilter.EndingBlock (StorageFilter sf))
                (Int64 (BlockNumber p)).

(** A transaction (receipt) matches when its metadata passes the check of
    its pass. *)
Definition matchesTrx (sf : StreamFilters) (meta : TrxMetaData.t) : bool :=
  checkTransactions (TrxFilter.Src (TrxFilter sf)) (TrxFilter.Dst (TrxFilter sf))
                    (TrxMetaData.Src meta) (TrxMetaData.Dst meta).

Definition matchesReceipt (sf : StreamFilters) (meta : ReceiptMetaData.t)
    : bool :=
  checkReceipts (ReceiptFilter.Topic0s (ReceiptFilter sf))
                (ReceiptMetaData.Topic0s meta).

Definition matchedTransactions (sf : StreamFilters) (p : IPLDPayload)
    : list Transaction :=
  selected (matchesTrx sf) (Body.Transactions (BlockBody p)) (TrxMetaData p).

Definition matchedReceipts (sf : StreamFilters) (p : IPLDPayload)
    : list Receipt :=
  selected (matchesReceipt sf) (Receipts p) (ReceiptMetaData p).

(** What one iteration of the state loop does to the response map. *)
Definition stateStep (keyFilters : list Hash) (intermediateNodes : bool)
    (m : gmap Hash bytes) (entry : Hash * StateNode.t) : gmap Hash bytes :=
  if checkNodeKeys keyFilters entry.1
     && (StateNode.Leaf entry.2 || intermediateNodes)
  then <[entry.1 := StateNode.Value entry.2]> m
  else m.

(** What one iteration of the inner and of the outer storage loop does to
    the maps of the response, once these are made. *)
Definition storageStep (storageKeyFilters : list Hash)
    (inner : gmap Hash bytes) (node : StorageNode.t Hash) : gmap Hash bytes :=
  if checkNodeKeys storageKeyFilters (StorageNode.Key node)
  then <[StorageNode.Key node := StorageNode.Value node]> inner
  else inner.

Definition accountStep (stateKeyFilters storageKeyFilters : list Hash)
    (m : gmap Hash (gmap Hash bytes))
    (account : Hash * list (StorageNode.t Hash))
    : gmap Hash (gmap Hash bytes) :=
  if checkNodeKeys stateKeyFilters account.1
  then <[account.1 := foldl (storageStep storageKeyFilters) ∅ account.2]> m
  else m.

(** A computation that leaves the filters and the payload of the store as
    it found them, whatever its outcome. *)
Definition reads_inputs {A} (m : M A) : Prop :=
  ∀ s, filters (m s).2 = filters s ∧ payload (m s).2 = payload s.

End Vocabulary.

(** ** Further inputs and vocabulary *)

(** Every category but storage is requested, for blocks 100 to 120 only. *)
Definition filters_past : StreamFilters :=
  mkStreamFilters
    (HeaderFilter.mk false 100 120 true)
    (TrxFilter.mk false 100 120 [] [])
    (ReceiptFilter.mk false 100 120 [])
    (StateFilter.mk false 100 120 [] true)
    (StorageFilter.mk true 0 0 [] []).

(** Block 150 with three transactions and two receipts, where the last
    transaction and the last receipt have no metadata. *)
Definition payload_short : IPLDPayload (C := toy) :=
  mkIPLDPayload (C := toy)
    b1 150
    (Body.mk [] [Some b1; Some b2; Some b3])
    [TrxMetaData.mk "0xA" "0xC"; TrxMetaData.mk "0xZ" "0xC"]
    [Some b1; Some b2]
    [ReceiptMetaData.mk ["0x2"%string; "0x9"%string]]
    ∅ ∅.

(** Block 150 with three uncles, the second of which does not encode, and
    a transaction without metadata. *)
Definition payload_bad_uncle : IPLDPayload (C := toy) :=
  mkIPLDPayload (C := toy)
    b1 150
    (Body.mk [Some b1; None; Some b3] [Some b2])
    [] [] [] ∅ ∅.

(** Block 150 with a transaction that matches [filters_on] and does not
    encode. *)
Definition payload_bad_trx : IPLDPayload (C := toy) :=
  mkIPLDPayload (C := toy)
    b1 150
    (Body.mk [] [None])
    [TrxMetaData.mk "0xA" "0xC"] [] [] ∅ ∅.

(** A store whose response already has a storage-node map, with the
    storage pass requested for every account and slot; the account of the
    payload has two nodes for slot [s1]. *)
Definition store_made : Store (C := toy) :=
  mkStore (C := toy) filters_storage
    (mkIPLDPayload (C := toy) b1 150 (Body.mk [] []) [] [] [] ∅
       (<["k1"%string := [StorageNode.mk "s1"%string b1;
                           StorageNode.mk "s2"%string b2;
                           StorageNode.mk "s1"%string b3]]> ∅))
    (mkResponsePayload (C := toy) [] [] [] [] None (Some ∅)).

Section Footprint.
Context `{C : Collaborators}.

(** A computation whose every run, whatever its outcome, takes the
    response to one related to it by [R]. *)
Definition stays_within {A} (R : relation ResponsePayload) (m : M A) : Prop :=
  ∀ s, R (response s) (response (m s).2).

(** The response after a pass that may only append to [HeadersRlp] and to
    [UnclesRlp]. *)
Definition headers_footprint (r r' : ResponsePayload) : Prop :=
  HeadersRlp r `prefix_of` HeadersRlp r' ∧
  UnclesRlp r `prefix_of` UnclesRlp r' ∧
  TransactionsRlp r' = TransactionsRlp r ∧
  ReceiptsRlp r' = ReceiptsRlp r ∧
  StateNodesRlp r' = StateNodesRlp r ∧
  StorageNodesRlp r' = StorageNodesRlp r.

(** The response after a pass that may only append to
    [TransactionsRlp]. *)
Definition transactions_footprint (r r' : ResponsePayload) : Prop :=
  HeadersRlp r' = HeadersRlp r ∧
  UnclesRlp r' = UnclesRlp r ∧
  TransactionsRlp r `prefix_of` TransactionsRlp r' ∧
  ReceiptsRlp r' = ReceiptsRlp r ∧
  StateNodesRlp r' = StateNodesRlp r ∧
  StorageNodesRlp r' = StorageNodesRlp r.

(** The response after a pass that may only append to [ReceiptsRlp]. *)
Definition receipts_footprint (r r' : ResponsePayload) : Prop :=
  HeadersRlp r' = HeadersRlp r ∧
  UnclesRlp r' = UnclesRlp r ∧
  TransactionsRlp r' = TransactionsRlp r ∧
  ReceiptsRlp r `prefix_of` ReceiptsRlp r' ∧
  StateNodesRlp r' = StateNodesRlp r ∧
  StorageNodesRlp r' = StorageNodesRlp r.

(** The response after a pass that may only write [StateNodesRlp]. *)
Definition state_footprint (r r' : ResponsePayload) : Prop :=
  HeadersRlp r' = HeadersRlp r ∧
  UnclesRlp r' = UnclesRlp r ∧
  TransactionsRlp r' = TransactionsRlp r ∧
  ReceiptsRlp r' = ReceiptsRlp r ∧
  StorageNodesRlp r' = StorageNodesRlp r.

(** The response after a pass that may only write [StorageNodesRlp]. *)
Definition storage_footprint (r r' : ResponsePayload) : Prop :=
  HeadersRlp r' = HeadersRlp r ∧
  UnclesRlp r' = UnclesRlp r ∧
  TransactionsRlp r' = TransactionsRlp r ∧
  ReceiptsRlp r' = ReceiptsRlp r ∧
  StateNodesRlp r' = StateNodesRlp r.

End Footprint.

(** A pass is requested for block [bn] when its filter is not off, the
    block is not below the start of its range and the range has no end
    ([end_ <= 0]) or the block is not above it. *)
Definition requested (off : bool) (start end_ bn : Z) : Prop :=
  off = false ∧ (start ≤ bn)%Z ∧ ((end_ ≤ 0)%Z ∨ (bn ≤ end_)%Z).

(** Every category but storage is requested, for every block, address and
    topic. *)
Definition filters_open : StreamFilters :=
  mkStreamFilters
    (HeaderFilter.mk false 0 0 true)
    (TrxFilter.mk false 0 0 [] [])
    (ReceiptFilter.mk false 0 0 [])
    (StateFilter.mk false 0 0 [] true)
    (StorageFilter.mk true 0 0 [] []).

(** [store_on] after the state-node map has been made. *)
Definition store_state_made : Store (C := toy) :=
  mkStore (C := toy) filters_on payload150
    (mkResponsePayload (C := toy) [] [] [] [] (Some ∅) None).

(** The store a pass of [ScreenResponse filters_on payload_short] starts
    in. *)
Definition store_short : Store (C := toy) :=
  mkStore (C := toy) filters_on payload_short (new_ResponsePayload (C := toy)).

(** * Properties *)

(** ** The matching predicates *)

Lemma existsb_eqb_elem_of (l : list string) (a : string) :
  existsb (λ x, String.eqb x a) l = true ↔ a ∈ l.
Proof.
  rewrite existsb_exists, list_elem_of_In. split.
  - intros (x & Hin & Heq). apply String.eqb_eq in Heq. by subst.
  - intros Hin. exists a. split; [done | apply String.eqb_refl].
Qed.

Lemma length_eqb_0 {A} (l : list A) : (length l =? 0)%nat = true ↔ l = [].
Proof. destruct l; simpl; split; intros; congruence. Qed.

Lemma checkTransactions_true (wantedSrc wantedDst : list string)
    (actualSrc actualDst : string) :
  checkTransactions wantedSrc wantedDst actualSrc actualDst = true ↔
  (wantedSrc = [] ∧ wantedDst = []) ∨
  actualSrc ∈ wantedSrc ∨ actualDst ∈ wantedDst.
Proof.
  unfold checkTransactions.
  rewrite <- !existsb_eqb_elem_of.
  destruct wantedDst as [|d wd], wantedSrc as [|s ws]; simpl;
    repeat match goal with
           | |- context [if ?b then _ else _] => destruct b eqn:?
           end; simpl in *; try tauto; try (split; [tauto|]);
    intros [[? ?] | [? | ?]]; congruence.
Qed.

Lemma checkReceipts_true (wantedTopics actualTopics : list string) :
  checkReceipts wantedTopics actualTopics = true ↔
  wantedTopics = [] ∨ ∃ topic, topic ∈ wantedTopics ∧ topic ∈ actualTopics.
Proof.
  unfold checkReceipts.
  destruct (length wantedTopics =? 0)%nat eqn:Hlen.
  - apply length_eqb_0 in Hlen. tauto.
  - assert (wantedTopics ≠ []) as Hne
      by (intros ->; simpl in Hlen; congruence).
    destruct (existsb _ wantedTopics) eqn:Hex.
    + apply existsb_exists in Hex as (w & Hw & Ha).
      apply list_elem_of_In in Hw.
      assert (w ∈ actualTopics) as Hwa.
      { apply existsb_exists in Ha as (a & Ha & Heq).
        apply String.eqb_eq in Heq. subst a. by apply list_elem_of_In. }
      split; [eauto | done].
    + split; [done |]. intros [? | (w & Hw & Ha)]; [done |].
      assert (existsb (λ wantedTopic,
                existsb (λ actualTopic, String.eqb wantedTopic actualTopic)
                        actualTopics) wantedTopics = true) as Hex'.
      { apply existsb_exists. exists w. split; [by apply list_elem_of_In |].
        apply existsb_exists. exists w.
        split; [by apply list_elem_of_In | apply String.eqb_refl]. }
      congruence.
Qed.

(** C2. The range predicate [checkRange start end actual] is true exactly
    when [actual >= start] and ([end <= 0] or [actual <= end]); it is true
    at (0,0,N) for every N >= 0, true at (100,0,500), false at (100,200,50),
    true at (100,200,150) and false at (100,200,300). *)
Theorem checkRange_spec :
  (∀ start end_ actual : Z,
     checkRange start end_ actual = true ↔
     (start ≤ actual ∧ (end_ ≤ 0 ∨ actual ≤ end_))%Z) ∧
  (∀ N : Z, (0 ≤ N)%Z → checkRange 0 0 N = true) ∧
  checkRange 100 0 500 = true ∧
  checkRange 100 200 50 = false ∧
  checkRange 100 200 150 = true ∧
  checkRange 100 200 300 = false.
Proof.
  assert (∀ start end_ actual : Z,
     checkRange start end_ actual = true ↔
     (start ≤ actual ∧ (end_ ≤ 0 ∨ actual ≤ end_))%Z) as Hspec.
  { intros start end_ actual. unfold checkRange.
    destruct (end_ <=? 0)%Z eqn:H1, (end_ >=? actual)%Z eqn:H2,
      (start <=? actual)%Z eqn:H3; simpl; lia. }
  split; [exact Hspec |].
  split; [intros N HN; apply Hspec; lia |].
  repeat split; reflexivity.
Qed.

Lemma checkRange_spec_witness :
  (0 ≤ 7)%Z ∧ checkRange 0 0 7 = true.
Proof.
  split; [lia |].
  apply (proj1 (proj2 checkRange_spec) 7%Z). lia.
Defined.

Section ScreenerProofs.
Context `{C : Collaborators}.

(** ** Encoding lists *)

Lemma encode_list_None {A E} (enc : A → bytes + E) (l : list A) :
  (encode_list enc l).2 = None → encodings enc l (encode_list enc l).1.
Proof.
  unfold encodings. induction l as [|x l IH]; simpl; [constructor |].
  destruct (enc x) as [b|e] eqn:Hx; simpl; [|discriminate].
  intros Hnone. constructor; auto.
Qed.

Lemma encode_list_Some {A E} (enc : A → bytes + E) (l : list A) (e : E) :
  (encode_list enc l).2 = Some e → ∃ x, x ∈ l ∧ enc x = inr e.
Proof.
  induction l as [|x l IH]; simpl; [discriminate |].
  destruct (enc x) as [b|e'] eqn:Hx; simpl.
  - intros H. destruct (IH H) as (y & Hy & Hey).
    exists y. split; [by apply list_elem_of_further | done].
  - intros [= ->]. exists x. split; [apply list_elem_of_here | done].
Qed.

Lemma encode_list_total {A E} (enc : A → bytes + E) (l : list A) :
  (∀ x, x ∈ l → ∃ b, enc x = inl b) → (encode_list enc l).2 = None.
Proof.
  induction l as [|x l IH]; simpl; [done |].
  intros Hall. destruct (Hall x (list_elem_of_here _ _)) as [b ->]. simpl.
  apply IH. intros y Hy. apply Hall. by apply list_elem_of_further.
Qed.

Lemma encodings_unique {A E} (enc : A → bytes + E) (l : list A)
    (bs bs' : list bytes) :
  encodings enc l bs → encodings enc l bs' → bs = bs'.
Proof.
  unfold encodings. intros H. revert bs'.
  induction H as [|x b l bs Hx _ IH]; intros bs' H'; inversion H'; subst.
  - done.
  - f_equal; [congruence | by apply IH].
Qed.

Lemma selected_sublist {A B} (P : B → bool) (items : list A)
    (metas : list B) :
  sublist (selected P items metas) items.
Proof.
  revert metas. induction items as [|x items IH]; intros [|m metas]; simpl;
    try apply sublist_nil_l.
  destruct (P m); [apply sublist_skip | apply sublist_cons]; apply IH.
Qed.

(** The selected items, by position. *)
Lemma elem_of_selected {A B} (P : B → bool) (items : list A)
    (metas : list B) (x : A) :
  x ∈ selected P items metas ↔
  ∃ i m, items !! i = Some x ∧ metas !! i = Some m ∧ P m = true.
Proof.
  revert metas. induction items as [|y items IH]; intros [|m metas]; simpl.
  - split; [by intros ?%elem_of_nil | by intros (i & m & ? & _)].
  - split; [by intros ?%elem_of_nil | by intros (i & m' & ? & _)].
  - split; [by intros ?%elem_of_nil | by intros (i & m' & _ & ? & _)].
  - destruct (P m) eqn:HP.
    + rewrite elem_of_cons, IH. split.
      * intros [-> | (i & m' & ? & ? & ?)];
          [by exists 0, m | by exists (S i), m'].
      * intros ([|i] & m' & Hi & Hm & HP'); simpl in *.
        -- left. congruence.
        -- right. by exists i, m'.
    + rewrite IH. split.
      * intros (i & m' & ? & ? & ?). by exists (S i), m'.
      * intros ([|i] & m' & Hi & Hm & HP'); simpl in *.
        -- congruence.
        -- by exists i, m'.
Qed.

(** ** The store *)

Lemma with_response_id (s : Store) : with_response (λ r, r) s = s.
Proof. by destruct s. Qed.

Lemma with_response_compose (f g : ResponsePayload → ResponsePayload)
    (s : Store) :
  with_response g (with_response f s) = with_response (λ r, g (f r)) s.
Proof. done. Qed.

Lemma with_response_ext (f g : ResponsePayload → ResponsePayload)
    (s : Store) :
  f (response s) = g (response s) → with_response f s = with_response g s.
Proof. unfold with_response. by intros ->. Qed.

Lemma append_UnclesRlp_nil (r : ResponsePayload) :
  set_UnclesRlp (UnclesRlp r ++ []) r = r.
Proof. destruct r. unfold set_UnclesRlp. simpl. by rewrite app_nil_r. Qed.

Lemma append_TransactionsRlp_nil (r : ResponsePayload) :
  set_TransactionsRlp (TransactionsRlp r ++ []) r = r.
Proof. destruct r. unfold set_TransactionsRlp. simpl. by rewrite app_nil_r. Qed.

Lemma append_ReceiptsRlp_nil (r : ResponsePayload) :
  set_ReceiptsRlp (ReceiptsRlp r ++ []) r = r.
Proof. destruct r. unfold set_ReceiptsRlp. simpl. by rewrite app_nil_r. Qed.

(** ** The header pass *)

Lemma filterHeaders_uncles_eq (uncles : list Header) (s : Store) :
  filterHeaders_uncles uncles s =
  (Val (encode_list EncodeToBytes uncles).2,
   with_response
     (λ r, set_UnclesRlp (UnclesRlp r ++ (encode_list EncodeToBytes uncles).1) r)
     s).
Proof.
  revert s. induction uncles as [|uncle rest IH]; intros s; simpl.
  - unfold ret. f_equal. symmetry.
    rewrite <- (with_response_id s) at 2.
    apply with_response_ext, append_UnclesRlp_nil.
  - destruct (EncodeToBytes uncle) as [b|e]; simpl.
    + unfold bind, modify_response. rewrite IH. f_equal.
      rewrite with_response_compose. apply with_response_ext.
      unfold set_UnclesRlp. simpl. by rewrite <- app_assoc.
    + unfold ret. f_equal. symmetry.
      rewrite <- (with_response_id s) at 2.
      apply with_response_ext, append_UnclesRlp_nil.
Qed.

Lemma filterHeaders_eq (s : Store) :
  filterHeaders s =
  if headersWanted (filters s) (payload s) then
    if HeaderFilter.Uncles (HeaderFilter (filters s)) then
      let us := encode_list EncodeToBytes (Body.Uncles (BlockBody (payload s))) in
      (Val us.2,
       with_response
         (λ r, set_UnclesRlp (UnclesRlp r ++ us.1)
                 (set_HeadersRlp (HeadersRlp r ++ [HeaderRLP (payload s)]) r))
         s)
    else
      (Val None,
       with_response
         (λ r, set_HeadersRlp (HeadersRlp r ++ [HeaderRLP (payload s)]) r) s)
  else (Val None, s).
Proof.
  unfold filterHeaders, headersWanted, bind, get, modify_response.
  destruct (negb _ && _); [|done].
  destruct (HeaderFilter.Uncles _); [|done].
  rewrite filterHeaders_uncles_eq. simpl. f_equal.
Qed.

Lemma checkNodeKeys_true (wantedKeys : list Hash) (actualKey : Hash) :
  checkNodeKeys wantedKeys actualKey = true ↔
  wantedKeys = [] ∨ actualKey ∈ wantedKeys.
Proof.
  unfold checkNodeKeys.
  destruct (length wantedKeys =? 0)%nat eqn:Hlen.
  - apply length_eqb_0 in Hlen. tauto.
  - assert (wantedKeys ≠ []) as Hne
      by (intros ->; simpl in Hlen; congruence).
    destruct (existsb _ wantedKeys) eqn:Hex.
    + apply existsb_exists in Hex as (k & Hk & Heq).
      apply bool_decide_eq_true in Heq. subst k.
      apply list_elem_of_In in Hk. tauto.
    + split; [done |]. intros [? | Hin]; [done |].
      assert (existsb (λ key, bool_decide (key = actualKey)) wantedKeys = true)
        as Hex'.
      { apply existsb_exists. exists actualKey.
        split; [by apply list_elem_of_In | by apply bool_decide_eq_true]. }
      congruence.
Qed.

(** ** The transaction and receipt passes *)

Lemma drop_lookup_Some {A} (l : list A) (i : nat) (x : A) :
  l !! i = Some x → drop i l = x :: drop (S i) l.
Proof.
  revert i. induction l as [|y l IH]; intros [|i]; simpl; try done.
  - by intros [= ->].
  - apply IH.
Qed.

Lemma drop_lookup_None {A} (l : list A) (i : nat) :
  l !! i = None → drop i l = [].
Proof. intros H%lookup_ge_None. by apply drop_ge. Qed.

(** The shared shape of the two loop proofs: run one iteration, split on
    the metadata lookup, on the match and on the encoder, and close each
    branch with the induction hypothesis at the next position. *)
Ltac range_step IH Hi :=
  unfold bind, get, index; simpl;
  match goal with
  | |- context [?metas !! ?i] => destruct (metas !! i) as [meta|] eqn:Hi
  end.

Lemma filterTransactions_range_eq (trxs : list Transaction) (i : nat)
    (s : Store) :
  length trxs ≤ length (drop i (TrxMetaData (payload s))) →
  filterTransactions_range i trxs s =
  let ts := encode_list Transaction_EncodeRLP
              (selected (matchesTrx (filters s)) trxs
                        (drop i (TrxMetaData (payload s)))) in
  (Val ts.2,
   with_response (λ r, set_TransactionsRlp (TransactionsRlp r ++ ts.1) r) s).
Proof.
  revert i s. induction trxs as [|trx rest IH]; intros i s Hlen.
  - simpl. unfold ret. f_equal. symmetry.
    rewrite <- (with_response_id s) at 2.
    apply with_response_ext, append_TransactionsRlp_nil.
  - cbn [filterTransactions_range]. range_step IH Hi.
    + rewrite (drop_lookup_Some _ _ _ Hi) in Hlen |- *. simpl in Hlen.
      cbn [selected]. unfold ret at 1.
      destruct (matchesTrx (filters s) meta) eqn:Hm;
        unfold matchesTrx in Hm; rewrite Hm.
      * cbn [encode_list]. destruct (Transaction_EncodeRLP trx) as [b|e].
        -- unfold modify_response. rewrite IH by (simpl; lia). simpl.
           f_equal. unfold with_response. simpl. f_equal.
           unfold set_TransactionsRlp. simpl. by rewrite <- app_assoc.
        -- unfold ret. simpl. f_equal. symmetry.
           rewrite <- (with_response_id s) at 2.
           apply with_response_ext, append_TransactionsRlp_nil.
      * by rewrite IH by lia.
    + rewrite (drop_lookup_None _ _ Hi) in Hlen. simpl in Hlen. lia.
Qed.

Lemma filterTransactions_range_aligned (trxs : list Transaction) (i : nat)
    (s s' : Store) :
  filterTransactions_range i trxs s = (Val None, s') →
  length trxs ≤ length (drop i (TrxMetaData (payload s))).
Proof.
  revert i s. induction trxs as [|trx rest IH]; intros i s; [simpl; lia |].
  cbn [filterTransactions_range]. range_step IH Hi; [|discriminate].
  rewrite (drop_lookup_Some _ _ _ Hi). simpl. unfold ret at 1.
  destruct (checkTransactions _ _ _ _).
  - destruct (Transaction_EncodeRLP trx) as [b|e]; [|discriminate].
    unfold modify_response. intros H%IH. simpl in H. lia.
  - intros H%IH. lia.
Qed.

Lemma filerReceipts_range_eq (receipts : list Receipt) (i : nat)
    (s : Store) :
  length receipts ≤ length (drop i (ReceiptMetaData (payload s))) →
  filerReceipts_range i receipts s =
  let rs := encode_list Receipt_EncodeRLP
              (selected (matchesReceipt (filters s)) receipts
                        (drop i (ReceiptMetaData (payload s)))) in
  (Val rs.2,
   with_response (λ r, set_ReceiptsRlp (ReceiptsRlp r ++ rs.1) r) s).
Proof.
  revert i s. induction receipts as [|receipt rest IH]; intros i s Hlen.
  - simpl. unfold ret. f_equal. symmetry.
    rewrite <- (with_response_id s) at 2.
    apply with_response_ext, append_ReceiptsRlp_nil.
  - cbn [filerReceipts_range]. range_step IH Hi.
    + rewrite (drop_lookup_Some _ _ _ Hi) in Hlen |- *. simpl in Hlen.
      cbn [selected]. unfold ret at 1.
      destruct (matchesReceipt (filters s) meta) eqn:Hm;
        unfold matchesReceipt in Hm; rewrite Hm.
      * cbn [encode_list]. destruct (Receipt_EncodeRLP receipt) as [b|e].
        -- unfold modify_response. rewrite IH by (simpl; lia). simpl.
           f_equal. unfold with_response. simpl. f_equal.
           unfold set_ReceiptsRlp. simpl. by rewrite <- app_assoc.
        -- unfold ret. simpl. f_equal. symmetry.
           rewrite <- (with_response_id s) at 2.
           apply with_response_ext, append_ReceiptsRlp_nil.
      * by rewrite IH by lia.
    + rewrite (drop_lookup_None _ _ Hi) in Hlen. simpl in Hlen. lia.
Qed.

Lemma filerReceipts_range_aligned (receipts : list Receipt) (i : nat)
    (s s' : Store) :
  filerReceipts_range i receipts s = (Val None, s') →
  length receipts ≤ length (drop i (ReceiptMetaData (payload s))).
Proof.
  revert i s. induction receipts as [|receipt rest IH]; intros i s;
    [simpl; lia |].
  cbn [filerReceipts_range]. range_step IH Hi; [|discriminate].
  rewrite (drop_lookup_Some _ _ _ Hi). simpl. unfold ret at 1.
  destruct (checkReceipts _ _).
  - destruct (Receipt_EncodeRLP receipt) as [b|e]; [|discriminate].
    unfold modify_response. intros H%IH. simpl in H. lia.
  - intros H%IH. lia.
Qed.

Lemma filterTransactions_range_error (trxs : list Transaction) (i : nat)
    (s s' : Store) (e : error) :
  filterTransactions_range i trxs s = (Val (Some e), s') →
  ∃ trx,
    trx ∈ selected (matchesTrx (filters s)) trxs
            (drop i (TrxMetaData (payload s))) ∧
    Transaction_EncodeRLP trx = inr e.
Proof.
  revert i s. induction trxs as [|trx rest IH]; intros i s; [discriminate |].
  cbn [filterTransactions_range]. range_step IH Hi; [|discriminate].
  rewrite (drop_lookup_Some _ _ _ Hi). cbn [selected]. unfold ret at 1.
  destruct (matchesTrx (filters s) meta) eqn:Hm;
    unfold matchesTrx in Hm; rewrite Hm.
  - destruct (Transaction_EncodeRLP trx) as [b|e0] eqn:Henc.
    + unfold modify_response. intros (trx' & Hin & He)%IH.
      exists trx'. split; [by apply list_elem_of_further | done].
    + intros [= -> _]. exists trx. split; [apply list_elem_of_here | done].
  - apply IH.
Qed.

Lemma filerReceipts_range_error (receipts : list Receipt) (i : nat)
    (s s' : Store) (e : error) :
  filerReceipts_range i receipts s = (Val (Some e), s') →
  ∃ receipt,
    receipt ∈ selected (matchesReceipt (filters s)) receipts
                (drop i (ReceiptMetaData (payload s))) ∧
    Receipt_EncodeRLP receipt = inr e.
Proof.
  revert i s. induction receipts as [|receipt rest IH]; intros i s;
    [discriminate |].
  cbn [filerReceipts_range]. range_step IH Hi; [|discriminate].
  rewrite (drop_lookup_Some _ _ _ Hi). cbn [selected]. unfold ret at 1.
  destruct (matchesReceipt (filters s) meta) eqn:Hm;
    unfold matchesReceipt in Hm; rewrite Hm.
  - destruct (Receipt_EncodeRLP receipt) as [b|e0] eqn:Henc.
    + unfold modify_response. intros (receipt' & Hin & He)%IH.
      exists receipt'. split; [by apply list_elem_of_further | done].
    + intros [= -> _]. exists receipt.
      split; [apply list_elem_of_here | done].
  - apply IH.
Qed.

Lemma filterTransactions_eq (s : Store) :
  transactionsWanted (filters s) (payload s) = true →
  length (Body.Transactions (BlockBody (payload s)))
    ≤ length (TrxMetaData (payload s)) →
  filterTransactions s =
  let ts := encode_list Transaction_EncodeRLP
              (matchedTransactions (filters s) (payload s)) in
  (Val ts.2,
   with_response (λ r, set_TransactionsRlp (TransactionsRlp r ++ ts.1) r) s).
Proof.
  intros Hgate Hlen. unfold filterTransactions, bind, get.
  unfold transactionsWanted in Hgate. rewrite Hgate.
  by rewrite filterTransactions_range_eq.
Qed.

Lemma filterTransactions_skip (s : Store) :
  transactionsWanted (filters s) (payload s) = false →
  filterTransactions s = (Val None, s).
Proof.
  intros Hgate. unfold filterTransactions, bind, get.
  unfold transactionsWanted in Hgate. by rewrite Hgate.
Qed.

Lemma filterTransactions_success (s s' : Store) :
  filterTransactions s = (Val None, s') →
  ∃ bs,
    s' = with_response (λ r, set_TransactionsRlp (TransactionsRlp r ++ bs) r) s ∧
    if transactionsWanted (filters s) (payload s)
    then encodings Transaction_EncodeRLP
           (matchedTransactions (filters s) (payload s)) bs
    else bs = [].
Proof.
  destruct (transactionsWanted (filters s) (payload s)) eqn:Hgate.
  - intros Hrun.
    assert (length (Body.Transactions (BlockBody (payload s)))
              ≤ length (TrxMetaData (payload s))) as Hlen.
    { revert Hrun. unfold filterTransactions, bind, get.
      unfold transactionsWanted in Hgate. rewrite Hgate.
      by intros H%filterTransactions_range_aligned. }
    rewrite (filterTransactions_eq s Hgate Hlen) in Hrun. simpl in Hrun.
    injection Hrun as Hnone <-. eexists. split; [done |].
    by apply encode_list_None.
  - rewrite (filterTransactions_skip s Hgate). intros [= <-].
    exists []. split; [|done]. symmetry.
    rewrite <- (with_response_id s) at 2.
    apply with_response_ext, append_TransactionsRlp_nil.
Qed.

Lemma filerReceipts_eq (s : Store) :
  receiptsWanted (filters s) (payload s) = true →
  length (Receipts (payload s)) ≤ length (ReceiptMetaData (payload s)) →
  filerReceipts s =
  let rs := encode_list Receipt_EncodeRLP
              (matchedReceipts (filters s) (payload s)) in
  (Val rs.2,
   with_response (λ r, set_ReceiptsRlp (ReceiptsRlp r ++ rs.1) r) s).
Proof.
  intros Hgate Hlen. unfold filerReceipts, bind, get.
  unfold receiptsWanted in Hgate. rewrite Hgate.
  by rewrite filerReceipts_range_eq.
Qed.

Lemma filerReceipts_skip (s : Store) :
  receiptsWanted (filters s) (payload s) = false →
  filerReceipts s = (Val None, s).
Proof.
  intros Hgate. unfold filerReceipts, bind, get.
  unfold receiptsWanted in Hgate. by rewrite Hgate.
Qed.

Lemma filerReceipts_success (s s' : Store) :
  filerReceipts s = (Val None, s') →
  ∃ bs,
    s' = with_response (λ r, set_ReceiptsRlp (ReceiptsRlp r ++ bs) r) s ∧
    if receiptsWanted (filters s) (payload s)
    then encodings Receipt_EncodeRLP
           (matchedReceipts (filters s) (payload s)) bs
    else bs = [].
Proof.
  destruct (receiptsWanted (filters s) (payload s)) eqn:Hgate.
  - intros Hrun.
    assert (length (Receipts (payload s))
              ≤ length (ReceiptMetaData (payload s))) as Hlen.
    { revert Hrun. unfold filerReceipts, bind, get.
      unfold receiptsWanted in Hgate. rewrite Hgate.
      by intros H%filerReceipts_range_aligned. }
    rewrite (filerReceipts_eq s Hgate Hlen) in Hrun. simpl in Hrun.
    injection Hrun as Hnone <-. eexists. split; [done |].
    by apply encode_list_None.
  - rewrite (filerReceipts_skip s Hgate). intros [= <-].
    exists []. split; [|done]. symmetry.
    rewrite <- (with_response_id s) at 2.
    apply with_response_ext, append_ReceiptsRlp_nil.
Qed.

(** ** The state pass *)

Lemma filterState_range_eq (keyFilters : list Hash) (intermediateNodes : bool)
    (nodes : list (Hash * StateNode.t)) (s : Store) (m : gmap Hash bytes) :
  StateNodesRlp (response s) = Some m →
  filterState_range keyFilters intermediateNodes nodes s =
  (Val tt,
   with_response
     (set_StateNodesRlp
        (Some (foldl (stateStep keyFilters intermediateNodes) m nodes))) s).
Proof.
  revert s m. induction nodes as [|[key node] rest IH]; intros s m Hm.
  - simpl. unfold ret. f_equal.
    destruct s as [f p r]. destruct r. simpl in Hm. by subst.
  - cbn [filterState_range foldl]. unfold bind, stateStep. simpl.
    destruct (checkNodeKeys keyFilters key); simpl.
    + destruct (StateNode.Leaf node || intermediateNodes); simpl.
      * unfold assign_StateNodesRlp, bind, get. rewrite Hm.
        unfold modify_response.
        by rewrite (IH _ (<[key := StateNode.Value node]> m)).
      * unfold ret. by apply IH.
    + unfold ret. by apply IH.
Qed.

(** The map the state loop builds, entry by entry, when no key is visited
    twice. *)
Lemma foldl_stateStep_lookup (keyFilters : list Hash)
    (intermediateNodes : bool) (nodes : list (Hash * StateNode.t))
    (m : gmap Hash bytes) (k : Hash) :
  NoDup nodes.*1 →
  foldl (stateStep keyFilters intermediateNodes) m nodes !! k =
  match (list_to_map nodes : gmap Hash StateNode.t) !! k with
  | Some node =>
      if checkNodeKeys keyFilters k
         && (StateNode.Leaf node || intermediateNodes)
      then Some (StateNode.Value node)
      else m !! k
  | None => m !! k
  end.
Proof.
  revert m. induction nodes as [|[key node] rest IH]; intros m Hnd.
  - simpl. by rewrite lookup_empty.
  - simpl in Hnd. apply NoDup_cons in Hnd as [Hnotin Hnd].
    cbn [foldl]. rewrite IH by done. rewrite list_to_map_cons.
    destruct (decide (key = k)) as [->|Hne].
    + rewrite lookup_insert_eq.
      rewrite (not_elem_of_list_to_map_1 rest k Hnotin).
      unfold stateStep. simpl.
      destruct (checkNodeKeys keyFilters k && _); [|done].
      by rewrite lookup_insert_eq.
    + rewrite lookup_insert_ne by done.
      assert (stateStep keyFilters intermediateNodes m (key, node) !! k
              = m !! k) as ->; [|done].
      unfold stateStep. simpl.
      destruct (checkNodeKeys keyFilters key && _); [|done].
      by rewrite lookup_insert_ne.
Qed.

Lemma foldl_stateStep_map_to_list (keyFilters : list Hash)
    (intermediateNodes : bool) (nodes : gmap Hash StateNode.t) (k : Hash) :
  foldl (stateStep keyFilters intermediateNodes) ∅ (map_to_list nodes) !! k =
  match nodes !! k with
  | Some node =>
      if checkNodeKeys keyFilters k
         && (StateNode.Leaf node || intermediateNodes)
      then Some (StateNode.Value node)
      else None
  | None => None
  end.
Proof.
  rewrite foldl_stateStep_lookup by apply NoDup_fst_map_to_list.
  rewrite list_to_map_to_list, lookup_empty. done.
Qed.

(** Go does not fix the order in which a range visits a map: the state
    loop builds the same map in every order. *)
Lemma filterState_range_any_order (keyFilters : list Hash)
    (intermediateNodes : bool) (nodes : gmap Hash StateNode.t)
    (order : list (Hash * StateNode.t)) (s : Store) (m : gmap Hash bytes) :
  order ≡ₚ map_to_list nodes →
  StateNodesRlp (response s) = Some m →
  filterState_range keyFilters intermediateNodes order s =
  filterState_range keyFilters intermediateNodes (map_to_list nodes) s.
Proof.
  intros Hperm Hm. rewrite !(filterState_range_eq _ _ _ s m) by done.
  do 4 f_equal. apply map_eq. intros k.
  assert (NoDup order.*1) as Hnd
    by (rewrite Hperm; apply NoDup_fst_map_to_list).
  rewrite !foldl_stateStep_lookup
    by (done || apply NoDup_fst_map_to_list).
  by rewrite (list_to_map_proper order (map_to_list nodes) Hnd Hperm).
Qed.

Lemma filterState_eq (s : Store) :
  filterState s =
  (Val None,
   with_response
     (set_StateNodesRlp
        (Some (if stateWanted (filters s) (payload s)
               then foldl (stateStep
                             (addressKeys
                                (StateFilter.Addresses (StateFilter (filters s))))
                             (StateFilter.IntermediateNodes
                                (StateFilter (filters s))))
                          ∅ (map_to_list (StateNodes (payload s)))
               else ∅))) s).
Proof.
  unfold filterState, bind, modify_response, get, stateWanted. simpl.
  destruct (negb _ && _); [|done].
  by rewrite (filterState_range_eq _ _ _ _ ∅).
Qed.

(** ** The storage pass *)

Lemma filterStorage_range_nil (stateKeyFilters storageKeyFilters : list Hash)
    (accounts : list (Hash * list (StorageNode.t Hash))) (s : Store) :
  StorageNodesRlp (response s) = None →
  filterStorage_range stateKeyFilters storageKeyFilters accounts s =
  if existsb (λ account, checkNodeKeys stateKeyFilters account.1) accounts
  then (Panic NilMapAssignment, s)
  else (Val tt, s).
Proof.
  intros Hnil. induction accounts as [|[stateKey nodes] rest IH]; [done |].
  cbn [filterStorage_range existsb]. unfold bind. simpl.
  destruct (checkNodeKeys stateKeyFilters stateKey); simpl.
  - unfold assign_StorageNodesRlp, bind, get. by rewrite Hnil.
  - unfold ret. apply IH.
Qed.

Lemma filterStorage_nil (s : Store) :
  StorageNodesRlp (response s) = None →
  filterStorage s =
  if storageWanted (filters s) (payload s)
     && existsb (λ account,
          checkNodeKeys
            (addressKeys (StorageFilter.Addresses (StorageFilter (filters s))))
            account.1)
          (map_to_list (StorageNodes (payload s)))
  then (Panic NilMapAssignment, s)
  else (Val None, s).
Proof.
  intros Hnil. unfold filterStorage, bind, get, storageWanted.
  destruct (negb _ && _); [|done]. simpl.
  rewrite filterStorage_range_nil by done.
  by destruct (existsb _ _).
Qed.

(** *** The storage loops on a map that has been made

    What the storage pass would do had the outer map been made before the
    loop: the entries the specification describes. *)

Lemma with_response_StorageNodesRlp_id (s : Store)
    (m : gmap Hash (gmap Hash bytes)) :
  StorageNodesRlp (response s) = Some m →
  with_response (set_StorageNodesRlp (Some m)) s = s.
Proof. destruct s as [f p r]. destruct r. simpl. by intros ->. Qed.

Lemma filterStorage_nodes_eq (storageKeyFilters : list Hash) (stateKey : Hash)
    (nodes : list (StorageNode.t Hash)) (s : Store)
    (m : gmap Hash (gmap Hash bytes)) (inner : gmap Hash bytes) :
  StorageNodesRlp (response s) = Some m →
  m !! stateKey = Some inner →
  filterStorage_nodes storageKeyFilters stateKey nodes s =
  (Val tt,
   with_response
     (set_StorageNodesRlp
        (Some (<[stateKey := foldl (storageStep storageKeyFilters) inner nodes]> m)))
     s).
Proof.
  revert s m inner. induction nodes as [|node rest IH]; intros s m inner Hm Hin.
  - simpl. unfold ret. f_equal. rewrite insert_id by done.
    symmetry. by apply with_response_StorageNodesRlp_id.
  - cbn [filterStorage_nodes foldl]. unfold bind, storageStep at 2.
    destruct (checkNodeKeys storageKeyFilters (StorageNode.Key node)).
    + unfold assign_StorageNodesRlp_entry, bind, get. rewrite Hm, Hin.
      unfold modify_response.
      rewrite (IH _ (<[stateKey :=
                       <[StorageNode.Key node := StorageNode.Value node]> inner]> m)
                    (<[StorageNode.Key node := StorageNode.Value node]> inner))
        by (done || by rewrite lookup_insert_eq).
      by rewrite insert_insert_eq.
    + unfold ret. by apply IH.
Qed.

Lemma filterStorage_range_eq (stateKeyFilters storageKeyFilters : list Hash)
    (accounts : list (Hash * list (StorageNode.t Hash))) (s : Store)
    (m : gmap Hash (gmap Hash bytes)) :
  StorageNodesRlp (response s) = Some m →
  filterStorage_range stateKeyFilters storageKeyFilters accounts s =
  (Val tt,
   with_response
     (set_StorageNodesRlp
        (Some (foldl (accountStep stateKeyFilters storageKeyFilters) m accounts)))
     s).
Proof.
  revert s m. induction accounts as [|[stateKey nodes] rest IH]; intros s m Hm.
  - simpl. unfold ret. f_equal. symmetry.
    by apply with_response_StorageNodesRlp_id.
  - cbn [filterStorage_range foldl]. unfold bind at 1, accountStep at 2. simpl.
    destruct (checkNodeKeys stateKeyFilters stateKey).
    + unfold bind at 1. unfold assign_StorageNodesRlp, bind, get. rewrite Hm.
      unfold modify_response.
      rewrite (filterStorage_nodes_eq _ _ _ _ (<[stateKey := ∅]> m) ∅)
        by (done || by rewrite lookup_insert_eq).
      rewrite insert_insert_eq.
      by rewrite (IH _ (<[stateKey := foldl (storageStep storageKeyFilters) ∅ nodes]> m)).
    + unfold ret. by apply IH.
Qed.

Lemma foldl_accountStep_lookup (stateKeyFilters storageKeyFilters : list Hash)
    (accounts : list (Hash * list (StorageNode.t Hash)))
    (m : gmap Hash (gmap Hash bytes)) (k : Hash) :
  NoDup accounts.*1 →
  foldl (accountStep stateKeyFilters storageKeyFilters) m accounts !! k =
  match (list_to_map accounts : gmap Hash (list (StorageNode.t Hash))) !! k with
  | Some nodes =>
      if checkNodeKeys stateKeyFilters k
      then Some (foldl (storageStep storageKeyFilters) ∅ nodes)
      else m !! k
  | None => m !! k
  end.
Proof.
  revert m. induction accounts as [|[key nodes] rest IH]; intros m Hnd.
  - simpl. by rewrite lookup_empty.
  - simpl in Hnd. apply NoDup_cons in Hnd as [Hnotin Hnd].
    cbn [foldl]. rewrite IH by done. rewrite list_to_map_cons.
    destruct (decide (key = k)) as [->|Hne].
    + rewrite lookup_insert_eq.
      rewrite (not_elem_of_list_to_map_1 rest k Hnotin).
      unfold accountStep. simpl.
      destruct (checkNodeKeys stateKeyFilters k); [|done].
      by rewrite lookup_insert_eq.
    + rewrite lookup_insert_ne by done.
      assert (accountStep stateKeyFilters storageKeyFilters m (key, nodes) !! k
              = m !! k) as ->; [|done].
      unfold accountStep. simpl.
      destruct (checkNodeKeys stateKeyFilters key); [|done].
      by rewrite lookup_insert_ne.
Qed.

(** Every binding the inner loop adds is a storage node that matches. *)
Lemma foldl_storageStep_sound (storageKeyFilters : list Hash)
    (nodes : list (StorageNode.t Hash)) (inner : gmap Hash bytes)
    (k : Hash) (v : bytes) :
  foldl (storageStep storageKeyFilters) inner nodes !! k = Some v →
  inner !! k = Some v ∨
  ∃ node, node ∈ nodes ∧ StorageNode.Key node = k ∧
          StorageNode.Value node = v ∧
          checkNodeKeys storageKeyFilters k = true.
Proof.
  revert inner. induction nodes as [|node rest IH]; intros inner; [by left |].
  cbn [foldl]. intros [Hstep | (node' & Hin & ?)]%IH.
  - unfold storageStep in Hstep.
    destruct (checkNodeKeys storageKeyFilters (StorageNode.Key node)) eqn:Hc;
      [|by left].
    destruct (decide (StorageNode.Key node = k)) as [<-|Hne].
    + rewrite lookup_insert_eq in Hstep. injection Hstep as <-.
      right. exists node. split; [apply list_elem_of_here | done].
    + rewrite lookup_insert_ne in Hstep by done. by left.
  - right. exists node'. split; [by apply list_elem_of_further | done].
Qed.

Lemma foldl_storageStep_other (storageKeyFilters : list Hash)
    (nodes : list (StorageNode.t Hash)) (inner : gmap Hash bytes) (k : Hash) :
  k ∉ StorageNode.Key <$> nodes →
  foldl (storageStep storageKeyFilters) inner nodes !! k = inner !! k.
Proof.
  revert inner. induction nodes as [|node rest IH]; intros inner Hk; [done |].
  rewrite fmap_cons, not_elem_of_cons in Hk. destruct Hk as [Hne Hk].
  cbn [foldl]. rewrite IH by done. unfold storageStep.
  destruct (checkNodeKeys _ _); [|done]. by rewrite lookup_insert_ne.
Qed.

(** When no storage key occurs twice, every matching storage node is bound
    to its value. *)
Lemma foldl_storageStep_complete (storageKeyFilters : list Hash)
    (nodes : list (StorageNode.t Hash)) (inner : gmap Hash bytes)
    (node : StorageNode.t Hash) :
  NoDup (StorageNode.Key <$> nodes) →
  node ∈ nodes →
  checkNodeKeys storageKeyFilters (StorageNode.Key node) = true →
  foldl (storageStep storageKeyFilters) inner nodes !! StorageNode.Key node
  = Some (StorageNode.Value node).
Proof.
  revert inner. induction nodes as [|node0 rest IH]; intros inner Hnd Hin Hc.
  - by apply elem_of_nil in Hin.
  - rewrite fmap_cons in Hnd. apply NoDup_cons in Hnd as [Hnotin Hnd].
    cbn [foldl]. apply elem_of_cons in Hin as [-> | Hin].
    + rewrite foldl_storageStep_other by done.
      unfold storageStep. rewrite Hc. by rewrite lookup_insert_eq.
    + by apply IH.
Qed.

(** Had the outer map been made, an enabled, in-range storage pass would
    bind every matching state key of the payload to a map of the matching
    storage nodes of that account. *)
Lemma filterStorage_made_map (s : Store) (m : gmap Hash (gmap Hash bytes)) :
  StorageNodesRlp (response s) = Some m →
  storageWanted (filters s) (payload s) = true →
  let stateKeyFilters :=
    addressKeys (StorageFilter.Addresses (StorageFilter (filters s))) in
  let storageKeyFilters :=
    storageKeys (StorageFilter.StorageKeys (StorageFilter (filters s))) in
  ∃ m',
    filterStorage s
      = (Val None, with_response (set_StorageNodesRlp (Some m')) s) ∧
    ∀ stateKey nodes,
      StorageNodes (payload s) !! stateKey = Some nodes →
      checkNodeKeys stateKeyFilters stateKey = true →
      ∃ inner,
        m' !! stateKey = Some inner ∧
        (∀ k v, inner !! k = Some v →
           ∃ node, node ∈ nodes ∧ StorageNode.Key node = k ∧
                   StorageNode.Value node = v ∧
                   checkNodeKeys storageKeyFilters k = true) ∧
        (NoDup (StorageNode.Key <$> nodes) →
         ∀ node, node ∈ nodes →
           checkNodeKeys storageKeyFilters (StorageNode.Key node) = true →
           inner !! StorageNode.Key node = Some (StorageNode.Value node)).
Proof.
  intros Hm Hgate stateKeyFilters storageKeyFilters.
  eexists. split.
  - unfold filterStorage, bind, get. unfold storageWanted in Hgate.
    rewrite Hgate. by rewrite (filterStorage_range_eq _ _ _ _ m).
  - intros stateKey nodes Hnodes Hkey.
    rewrite foldl_accountStep_lookup by apply NoDup_fst_map_to_list.
    rewrite list_to_map_to_list, Hnodes.
    fold stateKeyFilters storageKeyFilters. rewrite Hkey.
    eexists. split; [done |]. split.
    + intros k v [Hempty | Hnode]%foldl_storageStep_sound; [|done].
      by rewrite lookup_empty in Hempty.
    + intros Hnd node Hin Hc. by apply foldl_storageStep_complete.
Qed.

(** ** Inputs are only read *)

Lemma reads_inputs_ret {A} (a : A) : reads_inputs (ret a).
Proof. by intros s. Qed.

Lemma reads_inputs_raise {A} (p : panic) : reads_inputs (raise (A := A) p).
Proof. by intros s. Qed.

Lemma reads_inputs_get : reads_inputs get.
Proof. by intros s. Qed.

Lemma reads_inputs_modify_response (f : ResponsePayload → ResponsePayload) :
  reads_inputs (modify_response f).
Proof. by intros s. Qed.

Lemma reads_inputs_bind {A B} (m : M A) (k : A → M B) :
  reads_inputs m → (∀ a, reads_inputs (k a)) → reads_inputs (bind m k).
Proof.
  intros Hm Hk s. unfold bind. specialize (Hm s).
  destruct (m s) as [[a|p] s1]; simpl in *; [|done].
  destruct (Hk a s1) as [-> ->]. done.
Qed.

Lemma reads_inputs_index {A} (l : list A) (i : nat) : reads_inputs (index l i).
Proof.
  unfold index. destruct (l !! i);
    [apply reads_inputs_ret | apply reads_inputs_raise].
Qed.

Create HintDb reads discriminated.
#[local] Hint Resolve reads_inputs_ret reads_inputs_raise reads_inputs_get
  reads_inputs_modify_response reads_inputs_index : reads.

(** Splits a computation along its binds and branches, leaving the loops
    to the hint database. *)
Ltac reads_inputs_tac :=
  repeat first
    [ solve [eauto with reads]
    | progress cbv zeta
    | apply reads_inputs_bind; [|intros ?]
    | match goal with
      | |- reads_inputs (match ?x with _ => _ end) => destruct x
      end ].

Lemma reads_inputs_assign_StateNodesRlp (key : Hash) (v : bytes) :
  reads_inputs (assign_StateNodesRlp key v).
Proof. unfold assign_StateNodesRlp. reads_inputs_tac. Qed.

Lemma reads_inputs_assign_StorageNodesRlp (stateKey : Hash)
    (v : gmap Hash bytes) :
  reads_inputs (assign_StorageNodesRlp stateKey v).
Proof. unfold assign_StorageNodesRlp. reads_inputs_tac. Qed.

Lemma reads_inputs_assign_StorageNodesRlp_entry (stateKey key : Hash)
    (v : bytes) :
  reads_inputs (assign_StorageNodesRlp_entry stateKey key v).
Proof. unfold assign_StorageNodesRlp_entry. reads_inputs_tac. Qed.

#[local] Hint Resolve reads_inputs_assign_StateNodesRlp
  reads_inputs_assign_StorageNodesRlp
  reads_inputs_assign_StorageNodesRlp_entry : reads.

Lemma reads_inputs_filterHeaders_uncles (uncles : list Header) :
  reads_inputs (filterHeaders_uncles uncles).
Proof. induction uncles; simpl; reads_inputs_tac. Qed.

Lemma reads_inputs_filterTransactions_range (trxs : list Transaction)
    (i : nat) :
  reads_inputs (filterTransactions_range i trxs).
Proof. revert i. induction trxs; intros i; simpl; reads_inputs_tac. Qed.

Lemma reads_inputs_filerReceipts_range (receipts : list Receipt) (i : nat) :
  reads_inputs (filerReceipts_range i receipts).
Proof. revert i. induction receipts; intros i; simpl; reads_inputs_tac. Qed.

Lemma reads_inputs_filterState_range (keyFilters : list Hash)
    (intermediateNodes : bool) (nodes : list (Hash * StateNode.t)) :
  reads_inputs (filterState_range keyFilters intermediateNodes nodes).
Proof. induction nodes as [|[? ?] ? ?]; simpl; reads_inputs_tac. Qed.

Lemma reads_inputs_filterStorage_nodes (storageKeyFilters : list Hash)
    (stateKey : Hash) (nodes : list (StorageNode.t Hash)) :
  reads_inputs (filterStorage_nodes storageKeyFilters stateKey nodes).
Proof. induction nodes; simpl; reads_inputs_tac. Qed.

#[local] Hint Resolve reads_inputs_filterHeaders_uncles
  reads_inputs_filterTransactions_range reads_inputs_filerReceipts_range
  reads_inputs_filterState_range reads_inputs_filterStorage_nodes : reads.

Lemma reads_inputs_filterStorage_range
    (stateKeyFilters storageKeyFilters : list Hash)
    (accounts : list (Hash * list (StorageNode.t Hash))) :
  reads_inputs (filterStorage_range stateKeyFilters storageKeyFilters accounts).
Proof. induction accounts as [|[? ?] ? ?]; simpl; reads_inputs_tac. Qed.

#[local] Hint Resolve reads_inputs_filterStorage_range : reads.

Lemma reads_inputs_filterHeaders : reads_inputs filterHeaders.
Proof. unfold filterHeaders. reads_inputs_tac. Qed.

Lemma reads_inputs_filterTransactions : reads_inputs filterTransactions.
Proof. unfold filterTransactions. reads_inputs_tac. Qed.

Lemma reads_inputs_filerReceipts : reads_inputs filerReceipts.
Proof. unfold filerReceipts. reads_inputs_tac. Qed.

Lemma reads_inputs_filterState : reads_inputs filterState.
Proof. unfold filterState. reads_inputs_tac. Qed.

Lemma reads_inputs_filterStorage : reads_inputs filterStorage.
Proof. unfold filterStorage. reads_inputs_tac. Qed.

#[local] Hint Resolve reads_inputs_filterHeaders
  reads_inputs_filterTransactions reads_inputs_filerReceipts
  reads_inputs_filterState reads_inputs_filterStorage : reads.

Lemma reads_inputs_screen : reads_inputs screen.
Proof. unfold screen. reads_inputs_tac. Qed.

(** C8. [ScreenResponse] leaves both of its inputs unchanged: after the
    call the filters and the payload (all of their fields, the metadata
    arrays and the two node mappings included) are what they were before
    it, whether the call returns a response, returns an error or panics. *)
Theorem ScreenResponse_inputs_unchanged (streamFilters : StreamFilters)
    (payload0 : IPLDPayload) :
  filters (ScreenResponse streamFilters payload0).2 = streamFilters ∧
  payload (ScreenResponse streamFilters payload0).2 = payload0.
Proof.
  unfold ScreenResponse.
  exact (reads_inputs_screen (mkStore streamFilters payload0 new_ResponsePayload)).
Qed.

(** ** Claims about single passes *)

(** C3. In an enabled, in-range transaction pass: a transaction matches
    when both requested address sets are empty, and otherwise exactly when
    its metadata src is in the requested sources or its metadata dst is in
    the requested destinations (either one is enough); the matching
    transactions are those at a position whose metadata matches; a pass
    that succeeds has appended the encodings of exactly the matching
    transactions, and a pass that fails returns the error of one of them;
    and when every transaction has its metadata the pass returns, with
    success when every matching transaction encodes. *)
Theorem filterTransactions_matches (s : Store) :
  TrxFilter.Off (TrxFilter (filters s)) = false →
  checkRange (TrxFilter.StartingBlock (TrxFilter (filters s)))
             (TrxFilter.EndingBlock (TrxFilter (filters s)))
             (Int64 (BlockNumber (payload s))) = true →
  let wantedSrc := TrxFilter.Src (TrxFilter (filters s)) in
  let wantedDst := TrxFilter.Dst (TrxFilter (filters s)) in
  let matching := matchedTransactions (filters s) (payload s) in
  (∀ actualSrc actualDst,
     (wantedSrc = [] ∧ wantedDst = [] →
      checkTransactions wantedSrc wantedDst actualSrc actualDst = true) ∧
     (¬ (wantedSrc = [] ∧ wantedDst = []) →
      (checkTransactions wantedSrc wantedDst actualSrc actualDst = true ↔
       actualSrc ∈ wantedSrc ∨ actualDst ∈ wantedDst))) ∧
  (∀ trx, trx ∈ matching ↔
     ∃ i meta,
       Body.Transactions (BlockBody (payload s)) !! i = Some trx ∧
       TrxMetaData (payload s) !! i = Some meta ∧
       checkTransactions wantedSrc wantedDst
         (TrxMetaData.Src meta) (TrxMetaData.Dst meta) = true) ∧
  (∀ s', filterTransactions s = (Val None, s') →
     ∃ bs, encodings Transaction_EncodeRLP matching bs ∧
           s' = with_response
                  (λ r, set_TransactionsRlp (TransactionsRlp r ++ bs) r) s) ∧
  (∀ e s', filterTransactions s = (Val (Some e), s') →
     ∃ trx, trx ∈ matching ∧ Transaction_EncodeRLP trx = inr e) ∧
  (length (Body.Transactions (BlockBody (payload s)))
     ≤ length (TrxMetaData (payload s)) →
   (∃ out s', filterTransactions s = (Val out, s')) ∧
   ((∀ trx, trx ∈ matching → ∃ b, Transaction_EncodeRLP trx = inl b) →
    ∃ s', filterTransactions s = (Val None, s'))).
Proof.
  intros Hoff Hrange wantedSrc wantedDst matching.
  assert (transactionsWanted (filters s) (payload s) = true) as Hgate
    by (unfold transactionsWanted; rewrite Hoff, Hrange; done).
  split; [|split; [|split; [|split]]].
  - intros actualSrc actualDst. rewrite checkTransactions_true. tauto.
  - intros trx. apply elem_of_selected.
  - intros s' (bs & -> & Hbs)%filterTransactions_success.
    rewrite Hgate in Hbs. eauto.
  - intros e s'. unfold filterTransactions, bind, get.
    unfold transactionsWanted in Hgate. rewrite Hgate.
    apply filterTransactions_range_error.
  - intros Hlen. rewrite (filterTransactions_eq s Hgate Hlen).
    split; [simpl; eauto |].
    intros Hall. simpl. fold matching. rewrite (encode_list_total _ _ Hall).
    eauto.
Qed.

(** C4. In an enabled, in-range receipt pass: a receipt matches when the
    requested topic0 set is empty, and otherwise exactly when its metadata
    topic0 set shares an element with the requested set; the matching
    receipts are those at a position whose metadata matches; a pass that
    succeeds has appended the encodings of exactly the matching receipts,
    and a pass that fails returns the error of one of them; and when every
    receipt has its metadata the pass returns, with success when every
    matching receipt encodes. *)
Theorem filerReceipts_matches (s : Store) :
  ReceiptFilter.Off (ReceiptFilter (filters s)) = false →
  checkRange (ReceiptFilter.StartingBlock (ReceiptFilter (filters s)))
             (ReceiptFilter.EndingBlock (ReceiptFilter (filters s)))
             (Int64 (BlockNumber (payload s))) = true →
  let wantedTopics := ReceiptFilter.Topic0s (ReceiptFilter (filters s)) in
  let matching := matchedReceipts (filters s) (payload s) in
  (∀ actualTopics,
     (wantedTopics = [] → checkReceipts wantedTopics actualTopics = true) ∧
     (wantedTopics ≠ [] →
      (checkReceipts wantedTopics actualTopics = true ↔
       ∃ topic, topic ∈ wantedTopics ∧ topic ∈ actualTopics))) ∧
  (∀ receipt, receipt ∈ matching ↔
     ∃ i meta,
       Receipts (payload s) !! i = Some receipt ∧
       ReceiptMetaData (payload s) !! i = Some meta ∧
       checkReceipts wantedTopics (ReceiptMetaData.Topic0s meta) = true) ∧
  (∀ s', filerReceipts s = (Val None, s') →
     ∃ bs, encodings Receipt_EncodeRLP matching bs ∧
           s' = with_response
                  (λ r, set_ReceiptsRlp (ReceiptsRlp r ++ bs) r) s) ∧
  (∀ e s', filerReceipts s = (Val (Some e), s') →
     ∃ receipt, receipt ∈ matching ∧ Receipt_EncodeRLP receipt = inr e) ∧
  (length (Receipts (payload s)) ≤ length (ReceiptMetaData (payload s)) →
   (∃ out s', filerReceipts s = (Val out, s')) ∧
   ((∀ receipt, receipt ∈ matching →
                ∃ b, Receipt_EncodeRLP receipt = inl b) →
    ∃ s', filerReceipts s = (Val None, s'))).
Proof.
  intros Hoff Hrange wantedTopics matching.
  assert (receiptsWanted (filters s) (payload s) = true) as Hgate
    by (unfold receiptsWanted; rewrite Hoff, Hrange; done).
  split; [|split; [|split; [|split]]].
  - intros actualTopics. rewrite checkReceipts_true. tauto.
  - intros receipt. apply elem_of_selected.
  - intros s' (bs & -> & Hbs)%filerReceipts_success.
    rewrite Hgate in Hbs. eauto.
  - intros e s'. unfold filerReceipts, bind, get.
    unfold receiptsWanted in Hgate. rewrite Hgate.
    apply filerReceipts_range_error.
  - intros Hlen. rewrite (filerReceipts_eq s Hgate Hlen).
    split; [simpl; eauto |].
    intros Hall. simpl. fold matching. rewrite (encode_list_total _ _ Hall).
    eauto.
Qed.

(** C6. In an enabled, in-range state pass the response's state-node map
    is a fresh map in which, for every state node of the payload whose key
    matches the requested keys (the keys derived from the filter addresses;
    no requested key matches every node), the key is bound to the node's
    raw value exactly when the node is a leaf or intermediate nodes are
    requested; a matching intermediate node is absent when they are not. *)
Theorem filterState_includes (s : Store) :
  StateFilter.Off (StateFilter (filters s)) = false →
  checkRange (StateFilter.StartingBlock (StateFilter (filters s)))
             (StateFilter.EndingBlock (StateFilter (filters s)))
             (Int64 (BlockNumber (payload s))) = true →
  let keyFilters :=
    addressKeys (StateFilter.Addresses (StateFilter (filters s))) in
  let intermediateNodes :=
    StateFilter.IntermediateNodes (StateFilter (filters s)) in
  ∃ m,
    filterState s
      = (Val None, with_response (set_StateNodesRlp (Some m)) s) ∧
    (∀ key, checkNodeKeys keyFilters key = true ↔
            keyFilters = [] ∨ key ∈ keyFilters) ∧
    ∀ key node,
      StateNodes (payload s) !! key = Some node →
      checkNodeKeys keyFilters key = true →
      (m !! key = Some (StateNode.Value node) ↔
       StateNode.Leaf node = true ∨ intermediateNodes = true) ∧
      (StateNode.Leaf node = false → intermediateNodes = false →
       m !! key = None).
Proof.
  intros Hoff Hrange keyFilters intermediateNodes.
  assert (stateWanted (filters s) (payload s) = true) as Hgate
    by (unfold stateWanted; rewrite Hoff, Hrange; done).
  eexists. split; [|split].
  - rewrite filterState_eq, Hgate. reflexivity.
  - intros key. apply checkNodeKeys_true.
  - intros key node Hnode Hkey.
    rewrite foldl_stateStep_map_to_list, Hnode.
    fold keyFilters intermediateNodes. rewrite Hkey. simpl.
    destruct (StateNode.Leaf node), intermediateNodes; simpl;
      (split; [split; [tauto || (intros; congruence) | ] | ]);
      intros; try done; try tauto; intuition congruence.
Qed.

(** C9. When the transaction metadata array is as long as the transaction
    array and the receipt metadata array is as long as the receipt array,
    neither pass indexes a metadata array out of bounds: both passes
    return (they do not panic), and so no index-out-of-range panic arises
    in them. *)
Theorem metadata_index_in_bounds (s : Store) :
  length (TrxMetaData (payload s))
    = length (Body.Transactions (BlockBody (payload s))) →
  length (ReceiptMetaData (payload s)) = length (Receipts (payload s)) →
  (∃ out s', filterTransactions s = (Val out, s')) ∧
  (∃ out s', filerReceipts s = (Val out, s')) ∧
  (∀ i n, (filterTransactions s).1 ≠ Panic (IndexOutOfRange i n)) ∧
  (∀ i n, (filerReceipts s).1 ≠ Panic (IndexOutOfRange i n)).
Proof.
  intros Htrx Hrcpt.
  assert (∃ out s', filterTransactions s = (Val out, s')) as Ht.
  { destruct (transactionsWanted (filters s) (payload s)) eqn:Hgate.
    - rewrite filterTransactions_eq by (done || lia). simpl. eauto.
    - rewrite filterTransactions_skip by done. eauto. }
  assert (∃ out s', filerReceipts s = (Val out, s')) as Hr.
  { destruct (receiptsWanted (filters s) (payload s)) eqn:Hgate.
    - rewrite filerReceipts_eq by (done || lia). simpl. eauto.
    - rewrite filerReceipts_skip by done. eauto. }
  split; [done |]. split; [done |].
  destruct Ht as (o1 & s1 & ->), Hr as (o2 & s2 & ->). simpl.
  split; intros; discriminate.
Qed.

(** ** The whole call *)

Lemma bind_Val_inv {A B} (m : M A) (k : A → M B) (s s' : Store) (b : B) :
  bind m k s = (Val b, s') →
  ∃ a s1, m s = (Val a, s1) ∧ k a s1 = (Val b, s').
Proof.
  unfold bind. destruct (m s) as [[a|p] s1]; [eauto | discriminate].
Qed.

Lemma filterHeaders_success (s s' : Store) :
  filterHeaders s = (Val None, s') →
  ∃ us,
    s' = with_response
           (λ r, set_UnclesRlp (UnclesRlp r ++ us)
                   (set_HeadersRlp
                      (HeadersRlp r
                       ++ (if headersWanted (filters s) (payload s)
                           then [HeaderRLP (payload s)] else [])) r)) s ∧
    if headersWanted (filters s) (payload s)
       && HeaderFilter.Uncles (HeaderFilter (filters s))
    then encodings EncodeToBytes (Body.Uncles (BlockBody (payload s))) us
    else us = [].
Proof.
  rewrite filterHeaders_eq.
  destruct (headersWanted _ _); [destruct (HeaderFilter.Uncles _) |]; simpl.
  - intros [= Hnone <-]. eexists. split; [done |]. by apply encode_list_None.
  - intros [= <-]. exists []. split; [|done].
    apply with_response_ext.
    destruct (response s). unfold set_UnclesRlp, set_HeadersRlp. simpl.
    by rewrite app_nil_r.
  - intros [= <-]. exists []. split; [|done].
    rewrite <- (with_response_id s) at 1. apply with_response_ext.
    destruct (response s). unfold set_UnclesRlp, set_HeadersRlp. simpl.
    by rewrite !app_nil_r.
Qed.

(** The five passes of a successful call, one after the other. *)
Lemma screen_success (s s' : Store) (r : ResponsePayload) :
  screen s = (Val (Some r, None), s') →
  ∃ s1 s2 s3 s4,
    filterHeaders s = (Val None, s1) ∧
    filterTransactions s1 = (Val None, s2) ∧
    filerReceipts s2 = (Val None, s3) ∧
    filterState s3 = (Val None, s4) ∧
    filterStorage s4 = (Val None, s') ∧
    r = response s'.
Proof.
  unfold screen. intros Hrun.
  apply bind_Val_inv in Hrun as ([e|] & s1 & H1 & Hrun); [discriminate |].
  apply bind_Val_inv in Hrun as ([e|] & s2 & H2 & Hrun); [discriminate |].
  apply bind_Val_inv in Hrun as ([e|] & s3 & H3 & Hrun); [discriminate |].
  apply bind_Val_inv in Hrun as ([e|] & s4 & H4 & Hrun); [discriminate |].
  apply bind_Val_inv in Hrun as ([e|] & s5 & H5 & Hrun); [discriminate |].
  unfold bind, get, ret in Hrun. injection Hrun as <- <-.
  by exists s1, s2, s3, s4.
Qed.

(** What a successful call returns, field by field. *)
Lemma ScreenResponse_success (streamFilters : StreamFilters)
    (payload0 : IPLDPayload) (r : ResponsePayload) (s' : Store) :
  ScreenResponse streamFilters payload0 = (Val (Some r, None), s') →
  ∃ us ts rs,
    r = mkResponsePayload
          (if headersWanted streamFilters payload0
           then [HeaderRLP payload0] else [])
          us ts rs
          (Some (if stateWanted streamFilters payload0
                 then foldl (stateStep
                               (addressKeys
                                  (StateFilter.Addresses
                                     (StateFilter streamFilters)))
                               (StateFilter.IntermediateNodes
                                  (StateFilter streamFilters)))
                            ∅ (map_to_list (StateNodes payload0))
                 else ∅))
          None ∧
    (if headersWanted streamFilters payload0
        && HeaderFilter.Uncles (HeaderFilter streamFilters)
     then encodings EncodeToBytes (Body.Uncles (BlockBody payload0)) us
     else us = []) ∧
    (if transactionsWanted streamFilters payload0
     then encodings Transaction_EncodeRLP
            (matchedTransactions streamFilters payload0) ts
     else ts = []) ∧
    (if receiptsWanted streamFilters payload0
     then encodings Receipt_EncodeRLP
            (matchedReceipts streamFilters payload0) rs
     else rs = []).
Proof.
  unfold ScreenResponse. intros Hrun.
  apply screen_success in Hrun as (s1 & s2 & s3 & s4 & H1 & H2 & H3 & H4 & H5 & ->).
  apply filterHeaders_success in H1 as (us & -> & Hus).
  apply filterTransactions_success in H2 as (ts & -> & Hts).
  apply filerReceipts_success in H3 as (rs & -> & Hrs).
  rewrite filterState_eq in H4. injection H4 as <-.
  rewrite filterStorage_nil in H5 by reflexivity.
  destruct (storageWanted _ _ && _); [discriminate |]. injection H5 as <-.
  exists us, ts, rs. simpl in *. done.
Qed.

(** The slip in the storage pass: [ScreenResponse] allocates the response
    with [new], the storage pass assigns into [response.StorageNodesRlp]
    without making the map first (the state pass does make its map), and
    so a call whose storage pass is enabled and in range, on a payload with
    an account whose state key matches, never returns a response. *)
Lemma ScreenResponse_storage_match_no_response
    (streamFilters : StreamFilters) (payload0 : IPLDPayload)
    (stateKey : Hash) (storageNodes : list (StorageNode.t Hash)) :
  storageWanted streamFilters payload0 = true →
  StorageNodes payload0 !! stateKey = Some storageNodes →
  checkNodeKeys
    (addressKeys (StorageFilter.Addresses (StorageFilter streamFilters)))
    stateKey = true →
  ∀ r s', ScreenResponse streamFilters payload0 ≠ (Val (Some r, None), s').
Proof.
  intros Hgate Hnodes Hkey r s' Hrun. unfold ScreenResponse in Hrun.
  apply screen_success in Hrun as (s1 & s2 & s3 & s4 & H1 & H2 & H3 & H4 & H5 & ->).
  apply filterHeaders_success in H1 as (us & -> & Hus).
  apply filterTransactions_success in H2 as (ts & -> & Hts).
  apply filerReceipts_success in H3 as (rs & -> & Hrs).
  rewrite filterState_eq in H4. injection H4 as <-.
  rewrite filterStorage_nil in H5 by reflexivity. simpl in H5.
  rewrite Hgate in H5. simpl in H5.
  destruct (existsb _ _) eqn:Hex; [discriminate |].
  assert (existsb
            (λ account : Hash * list (StorageNode.t Hash),
               checkNodeKeys
                 (addressKeys
                    (StorageFilter.Addresses (StorageFilter streamFilters)))
                 account.1)
            (map_to_list (StorageNodes payload0)) = true) as Hex'.
  { apply existsb_exists. exists (stateKey, storageNodes).
    split; [|done]. apply list_elem_of_In. by apply elem_of_map_to_list. }
  congruence.
Qed.

(** Go's return convention holds whenever the call returns: an error comes
    with a nil response, and a response comes with a nil error. *)
Lemma ScreenResponse_returns (streamFilters : StreamFilters)
    (payload0 : IPLDPayload) (out : option ResponsePayload * option error)
    (s' : Store) :
  ScreenResponse streamFilters payload0 = (Val out, s') →
  (∃ e, out = (None, Some e)) ∨ (∃ r, out = (Some r, None)).
Proof.
  unfold ScreenResponse, screen. intros Hrun.
  repeat (apply bind_Val_inv in Hrun as ([e|] & ? & _ & Hrun);
          [unfold ret in Hrun; injection Hrun as <- _; eauto |]).
  unfold bind, get, ret in Hrun. injection Hrun as <- _. eauto.
Qed.

(** C5. In a successfully returned response every category whose filter
    is off is empty: no header and no uncle when the header filter is off,
    no transaction when the transaction filter is off, no receipt when the
    receipt filter is off, a present but empty state-node map when the
    state filter is off, and an absent (nil) storage-node map when the
    storage filter is off; and the state-node map is always present, and
    empty whenever the state pass is off or the block is out of range. *)
Theorem ScreenResponse_off_empty (streamFilters : StreamFilters)
    (payload0 : IPLDPayload) (r : ResponsePayload) (s' : Store) :
  ScreenResponse streamFilters payload0 = (Val (Some r, None), s') →
  (HeaderFilter.Off (HeaderFilter streamFilters) = true →
   HeadersRlp r = [] ∧ UnclesRlp r = []) ∧
  (TrxFilter.Off (TrxFilter streamFilters) = true → TransactionsRlp r = []) ∧
  (ReceiptFilter.Off (ReceiptFilter streamFilters) = true →
   ReceiptsRlp r = []) ∧
  (StateFilter.Off (StateFilter streamFilters) = true →
   StateNodesRlp r = Some ∅) ∧
  (StorageFilter.Off (StorageFilter streamFilters) = true →
   StorageNodesRlp r = None) ∧
  (∃ m, StateNodesRlp r = Some m) ∧
  (stateWanted streamFilters payload0 = false → StateNodesRlp r = Some ∅).
Proof.
  intros (us & ts & rs & -> & Hus & Hts & Hrs)%ScreenResponse_success.
  simpl. split; [|split; [|split; [|split; [|split; [|split]]]]].
  - intros Hoff. unfold headersWanted in *. by rewrite Hoff in *.
  - intros Hoff. unfold transactionsWanted in Hts. by rewrite Hoff in Hts.
  - intros Hoff. unfold receiptsWanted in Hrs. by rewrite Hoff in Hrs.
  - intros Hoff. unfold stateWanted. by rewrite Hoff.
  - done.
  - eauto.
  - by intros ->.
Qed.

(** C10. In a successfully returned response the transaction list holds
    the encodings of the matched transactions in the order they have in the
    payload's transaction array, the receipt list holds the encodings of
    the matched receipts in the order they have in the payload's receipt
    array, and the uncle list, when uncles are included, holds the
    encodings of the payload's uncles in their order. *)
Theorem ScreenResponse_preserves_order (streamFilters : StreamFilters)
    (payload0 : IPLDPayload) (r : ResponsePayload) (s' : Store) :
  ScreenResponse streamFilters payload0 = (Val (Some r, None), s') →
  (∃ trxs,
     sublist trxs (Body.Transactions (BlockBody payload0)) ∧
     trxs = (if transactionsWanted streamFilters payload0
             then matchedTransactions streamFilters payload0 else []) ∧
     encodings Transaction_EncodeRLP trxs (TransactionsRlp r)) ∧
  (∃ receipts,
     sublist receipts (Receipts payload0) ∧
     receipts = (if receiptsWanted streamFilters payload0
                 then matchedReceipts streamFilters payload0 else []) ∧
     encodings Receipt_EncodeRLP receipts (ReceiptsRlp r)) ∧
  (∃ uncles,
     uncles = (if headersWanted streamFilters payload0
                  && HeaderFilter.Uncles (HeaderFilter streamFilters)
               then Body.Uncles (BlockBody payload0) else []) ∧
     encodings EncodeToBytes uncles (UnclesRlp r)).
Proof.
  intros (us & ts & rs & -> & Hus & Hts & Hrs)%ScreenResponse_success.
  simpl. split; [|split].
  - eexists. split; [|split; [reflexivity |]].
    + destruct (transactionsWanted _ _);
        [apply selected_sublist | apply sublist_nil_l].
    + destruct (transactionsWanted _ _); [done | subst; constructor].
  - eexists. split; [|split; [reflexivity |]].
    + destruct (receiptsWanted _ _);
        [apply selected_sublist | apply sublist_nil_l].
    + destruct (receiptsWanted _ _); [done | subst; constructor].
  - eexists. split; [reflexivity |].
    destruct (headersWanted _ _ && _); [done | subst; constructor].
Qed.

(** When the metadata is aligned, every uncle, matched transaction and
    matched receipt encodes, and the storage pass has nothing to write, the
    call returns a response and no error. *)
Lemma ScreenResponse_returns_response (streamFilters : StreamFilters)
    (payload0 : IPLDPayload) :
  length (Body.Transactions (BlockBody payload0))
    ≤ length (TrxMetaData payload0) →
  length (Receipts payload0) ≤ length (ReceiptMetaData payload0) →
  (∀ uncle, uncle ∈ Body.Uncles (BlockBody payload0) →
            ∃ b, EncodeToBytes uncle = inl b) →
  (∀ trx, trx ∈ matchedTransactions streamFilters payload0 →
          ∃ b, Transaction_EncodeRLP trx = inl b) →
  (∀ receipt, receipt ∈ matchedReceipts streamFilters payload0 →
              ∃ b, Receipt_EncodeRLP receipt = inl b) →
  storageWanted streamFilters payload0
  && existsb (λ account,
       checkNodeKeys
         (addressKeys (StorageFilter.Addresses (StorageFilter streamFilters)))
         account.1)
       (map_to_list (StorageNodes payload0)) = false →
  ∃ r s', ScreenResponse streamFilters payload0 = (Val (Some r, None), s').
Proof.
  intros Htrx Hrcpt Hu Ht Hr Hstorage.
  unfold ScreenResponse, screen, bind.
  set (s0 := mkStore streamFilters payload0 new_ResponsePayload).
  assert (∃ s1, filterHeaders s0 = (Val None, s1) ∧
                filters s1 = streamFilters ∧ payload s1 = payload0 ∧
                StorageNodesRlp (response s1) = None) as (s1 & -> & Hf1 & Hp1 & Hn1).
  { rewrite filterHeaders_eq.
    destruct (headersWanted _ _); [destruct (HeaderFilter.Uncles _) |];
      simpl; rewrite ?(encode_list_total _ _ Hu); eauto. }
  assert (∃ s2, filterTransactions s1 = (Val None, s2) ∧
                filters s2 = streamFilters ∧ payload s2 = payload0 ∧
                StorageNodesRlp (response s2) = None) as (s2 & -> & Hf2 & Hp2 & Hn2).
  { destruct (transactionsWanted (filters s1) (payload s1)) eqn:Hgate.
    - rewrite filterTransactions_eq by (done || (rewrite Hp1; done)). simpl.
      rewrite Hf1, Hp1, (encode_list_total _ _ Ht). eauto.
    - rewrite filterTransactions_skip by done. eauto. }
  assert (∃ s3, filerReceipts s2 = (Val None, s3) ∧
                filters s3 = streamFilters ∧ payload s3 = payload0 ∧
                StorageNodesRlp (response s3) = None) as (s3 & -> & Hf3 & Hp3 & Hn3).
  { destruct (receiptsWanted (filters s2) (payload s2)) eqn:Hgate.
    - rewrite filerReceipts_eq by (done || (rewrite Hp2; done)). simpl.
      rewrite Hf2, Hp2, (encode_list_total _ _ Hr). eauto.
    - rewrite filerReceipts_skip by done. eauto. }
  rewrite filterState_eq.
  rewrite filterStorage_nil by done. simpl.
  rewrite Hf3, Hp3, Hstorage. unfold get, ret. eauto.
Qed.

End ScreenerProofs.

(** * The claims on the small instance *)

Lemma filterTransactions_matches_witness :
  ∃ bs,
    encodings toy_encode [Some b1; Some b3] bs ∧
    filterTransactions (C := toy) store_on
      = (Val None,
         with_response
           (λ r, set_TransactionsRlp (TransactionsRlp r ++ bs) r) store_on).
Proof.
  pose proof (filterTransactions_matches (C := toy) store_on
                ltac:(reflexivity) ltac:(reflexivity))
    as (_ & _ & Hsucc & _ & Htotal).
  destruct (Htotal ltac:(reflexivity)) as (_ & Hall).
  destruct Hall as (s' & Hrun).
  { intros trx Htrx. apply list_elem_of_In in Htrx.
    vm_compute in Htrx. destruct Htrx as [<- | [<- | []]]; eexists; reflexivity. }
  destruct (Hsucc s' Hrun) as (bs & Henc & ->).
  exists bs. split; [exact Henc | exact Hrun].
Defined.

Lemma filerReceipts_matches_witness :
  ∃ bs,
    encodings toy_encode [Some b1] bs ∧
    filerReceipts (C := toy) store_on
      = (Val None,
         with_response (λ r, set_ReceiptsRlp (ReceiptsRlp r ++ bs) r) store_on).
Proof.
  pose proof (filerReceipts_matches (C := toy) store_on
                ltac:(reflexivity) ltac:(reflexivity))
    as (_ & _ & Hsucc & _ & Htotal).
  destruct (Htotal ltac:(reflexivity)) as (_ & Hall).
  destruct Hall as (s' & Hrun).
  { intros receipt Hin. apply list_elem_of_In in Hin.
    vm_compute in Hin. destruct Hin as [<- | []]; eexists; reflexivity. }
  destruct (Hsucc s' Hrun) as (bs & Henc & ->).
  exists bs. split; [exact Henc | exact Hrun].
Defined.

Lemma filterState_includes_witness :
  ∃ m : gmap string bytes,
    filterState (C := toy) store_on
      = (Val None, with_response (set_StateNodesRlp (C := toy) (Some m)) store_on) ∧
    m !! "k1"%string = Some b1 ∧
    m !! "k2"%string = None.
Proof.
  pose proof (filterState_includes (C := toy) store_on
                ltac:(reflexivity) ltac:(reflexivity))
    as (m & Hrun & _ & Hincl).
  exists m. split; [exact Hrun |]. split.
  - apply (proj1 (Hincl "k1"%string (StateNode.mk b1 true)
                    ltac:(vm_compute; reflexivity) ltac:(reflexivity))).
    left. reflexivity.
  - apply (proj2 (Hincl "k2"%string (StateNode.mk b2 false)
                    ltac:(vm_compute; reflexivity) ltac:(reflexivity)));
      reflexivity.
Defined.

Lemma metadata_index_in_bounds_witness :
  (∃ out s', filterTransactions (C := toy) store_on = (Val out, s')) ∧
  (∃ out s', filerReceipts (C := toy) store_on = (Val out, s')).
Proof.
  pose proof (metadata_index_in_bounds (C := toy) store_on
                ltac:(reflexivity) ltac:(reflexivity)) as (Ht & Hr & _).
  split; [exact Ht | exact Hr].
Defined.

Lemma ScreenResponse_off_empty_witness :
  ScreenResponse (C := toy) filters_off payload150
    = (Val (Some response_off, None),
       mkStore (C := toy) filters_off payload150 response_off) ∧
  HeadersRlp response_off = [] ∧
  UnclesRlp response_off = [] ∧
  StateNodesRlp response_off = Some ∅ ∧
  StorageNodesRlp response_off = None.
Proof.
  assert (ScreenResponse (C := toy) filters_off payload150
          = (Val (Some response_off, None),
             mkStore (C := toy) filters_off payload150 response_off)) as Hrun
    by (vm_compute; reflexivity).
  split; [exact Hrun |].
  destruct (ScreenResponse_off_empty (C := toy) _ _ _ _ Hrun)
    as (Hh & _ & _ & Hstate & Hstorage & _).
  destruct (Hh ltac:(reflexivity)) as [Hheaders Huncles].
  split; [exact Hheaders |]. split; [exact Huncles |].
  split; [apply Hstate | apply Hstorage]; reflexivity.
Defined.

Lemma ScreenResponse_preserves_order_witness :
  ScreenResponse (C := toy) filters_on payload150
    = (Val (Some response_on, None),
       mkStore (C := toy) filters_on payload150 response_on) ∧
  ∃ trxs,
    sublist trxs [Some b1; Some b2; Some b3] ∧
    trxs = [Some b1; Some b3] ∧
    encodings toy_encode trxs [b1; b3].
Proof.
  assert (ScreenResponse (C := toy) filters_on payload150
          = (Val (Some response_on, None),
             mkStore (C := toy) filters_on payload150 response_on)) as Hrun
    by (vm_compute; reflexivity).
  split; [exact Hrun |].
  destruct (ScreenResponse_preserves_order (C := toy) _ _ _ _ Hrun)
    as ((trxs & Hsub & Heq & Henc) & _).
  exists trxs. split; [exact Hsub |]. split; [exact Heq | exact Henc].
Defined.

(** C1. For an enabled, in-range storage filter and an account whose state
    key matches, [ScreenResponse] should create an entry of the response's
    storage-node map under that state key, holding the matching storage
    nodes. It does not: the first assignment into the storage-node map
    finds the nil map that [new] left there, and the call panics instead of
    returning a response. *)
Theorem ScreenResponse_storage_pass_panics :
  StorageFilter.Off (StorageFilter filters_storage) = false ∧
  checkRange (StorageFilter.StartingBlock (StorageFilter filters_storage))
             (StorageFilter.EndingBlock (StorageFilter filters_storage))
             (Int64 (BlockNumber (C := toy) payload150)) = true ∧
  StorageNodes (C := toy) payload150 !! "k1"%string
    = Some [StorageNode.mk "s1"%string b3] ∧
  checkNodeKeys (C := toy)
    (addressKeys (C := toy)
       (StorageFilter.Addresses (StorageFilter filters_storage)))
    "k1"%string = true ∧
  (ScreenResponse (C := toy) filters_storage payload150).1
    = Panic NilMapAssignment.
Proof. repeat split; vm_compute; reflexivity. Qed.

(** C7. A call in which an encoding fails returns the error and no
    response, and a call in which no encoding fails should return a
    response and no error. The second half fails: with every category
    requested, every uncle, transaction and receipt of the payload encodes,
    and yet the call panics in the storage pass and returns neither a
    response nor an error. *)
Theorem ScreenResponse_no_failure_no_response :
  Forall (λ x, ∃ b, toy_encode x = inl b)
    (Body.Uncles (BlockBody (C := toy) payload150)
     ++ Body.Transactions (BlockBody (C := toy) payload150)
     ++ Receipts (C := toy) payload150) ∧
  (ScreenResponse (C := toy) filters_all payload150).1
    = Panic NilMapAssignment ∧
  ∀ out, (ScreenResponse (C := toy) filters_all payload150).1 ≠ Val out.
Proof.
  split; [|split].
  - repeat constructor; eexists; reflexivity.
  - vm_compute. reflexivity.
  - intros out. vm_compute. discriminate.
Qed.

(** * Further properties of the passes *)

Section Footprints.
Context `{C : Collaborators}.

(** ** What a pass writes *)

#[local] Instance headers_footprint_preorder : PreOrder headers_footprint.
Proof.
  split.
  - intros r. by repeat split.
  - intros r1 r2 r3 (? & ? & ? & ? & ? & ?) (? & ? & ? & ? & ? & ?).
    repeat split; try congruence; by etrans.
Qed.

#[local] Instance transactions_footprint_preorder :
  PreOrder transactions_footprint.
Proof.
  split.
  - intros r. by repeat split.
  - intros r1 r2 r3 (? & ? & ? & ? & ? & ?) (? & ? & ? & ? & ? & ?).
    repeat split; try congruence; by etrans.
Qed.

#[local] Instance receipts_footprint_preorder : PreOrder receipts_footprint.
Proof.
  split.
  - intros r. by repeat split.
  - intros r1 r2 r3 (? & ? & ? & ? & ? & ?) (? & ? & ? & ? & ? & ?).
    repeat split; try congruence; by etrans.
Qed.

#[local] Instance state_footprint_preorder : PreOrder state_footprint.
Proof.
  split.
  - intros r. by repeat split.
  - intros r1 r2 r3 (? & ? & ? & ? & ?) (? & ? & ? & ? & ?).
    repeat split; congruence.
Qed.

#[local] Instance storage_footprint_preorder : PreOrder storage_footprint.
Proof.
  split.
  - intros r. by repeat split.
  - intros r1 r2 r3 (? & ? & ? & ? & ?) (? & ? & ? & ? & ?).
    repeat split; congruence.
Qed.

Section Within.
Context (R : relation ResponsePayload) `{!PreOrder R}.

Lemma stays_within_ret {A} (a : A) : stays_within R (ret a).
Proof. intros s. simpl. reflexivity. Qed.

Lemma stays_within_raise {A} (p : panic) : stays_within R (raise (A := A) p).
Proof. intros s. simpl. reflexivity. Qed.

Lemma stays_within_get : stays_within R get.
Proof. intros s. simpl. reflexivity. Qed.

Lemma stays_within_index {A} (l : list A) (i : nat) :
  stays_within R (index l i).
Proof.
  unfold index. destruct (l !! i);
    [apply stays_within_ret | apply stays_within_raise].
Qed.

Lemma stays_within_modify_response (f : ResponsePayload → ResponsePayload) :
  (∀ r, R r (f r)) → stays_within R (modify_response f).
Proof. intros Hf s. apply Hf. Qed.

Lemma stays_within_bind {A B} (m : M A) (k : A → M B) :
  stays_within R m → (∀ a, stays_within R (k a)) →
  stays_within R (bind m k).
Proof.
  intros Hm Hk s. unfold bind. specialize (Hm s).
  destruct (m s) as [[a|p] s1]; simpl in *; [|done].
  etrans; [exact Hm | apply Hk].
Qed.

End Within.

(** Splits a computation along its binds and branches; the writes are left
    as goals about the function applied to the response. *)
Ltac stays_within_tac :=
  repeat first
    [ match goal with H : _ |- _ => solve [apply H] end
    | apply stays_within_ret; solve [typeclasses eauto]
    | apply stays_within_raise; solve [typeclasses eauto]
    | apply stays_within_get; solve [typeclasses eauto]
    | apply stays_within_index; solve [typeclasses eauto]
    | progress cbv zeta
    | apply stays_within_bind; [typeclasses eauto | | intros ?]
    | apply stays_within_modify_response; intros ?
    | match goal with
      | |- stays_within _ (match ?x with _ => _ end) => destruct x
      end ].

Lemma stays_within_filterHeaders_uncles (uncles : list Header) :
  stays_within headers_footprint (filterHeaders_uncles uncles).
Proof.
  induction uncles; simpl; stays_within_tac.
  repeat split; try done. by apply prefix_app_r.
Qed.

Lemma stays_within_filterHeaders :
  stays_within headers_footprint filterHeaders.
Proof.
  pose proof stays_within_filterHeaders_uncles.
  unfold filterHeaders. stays_within_tac.
  repeat split; try done. by apply prefix_app_r.
Qed.

Lemma stays_within_filterTransactions_range (trxs : list Transaction)
    (i : nat) :
  stays_within transactions_footprint (filterTransactions_range i trxs).
Proof.
  revert i. induction trxs; intros i; simpl; stays_within_tac.
  repeat split; try done. by apply prefix_app_r.
Qed.

Lemma stays_within_filterTransactions :
  stays_within transactions_footprint filterTransactions.
Proof.
  pose proof stays_within_filterTransactions_range.
  unfold filterTransactions. stays_within_tac.
Qed.

Lemma stays_within_filerReceipts_range (receipts : list Receipt) (i : nat) :
  stays_within receipts_footprint (filerReceipts_range i receipts).
Proof.
  revert i. induction receipts; intros i; simpl; stays_within_tac.
  repeat split; try done. by apply prefix_app_r.
Qed.

Lemma stays_within_filerReceipts :
  stays_within receipts_footprint filerReceipts.
Proof.
  pose proof stays_within_filerReceipts_range.
  unfold filerReceipts. stays_within_tac.
Qed.

Lemma stays_within_assign_StateNodesRlp (key : Hash) (v : bytes) :
  stays_within state_footprint (assign_StateNodesRlp key v).
Proof. unfold assign_StateNodesRlp. stays_within_tac. by repeat split. Qed.

Lemma stays_within_filterState_range (keyFilters : list Hash)
    (intermediateNodes : bool) (nodes : list (Hash * StateNode.t)) :
  stays_within state_footprint
    (filterState_range keyFilters intermediateNodes nodes).
Proof.
  pose proof stays_within_assign_StateNodesRlp.
  induction nodes as [|[? ?] ? ?]; simpl; stays_within_tac.
Qed.

Lemma stays_within_filterState : stays_within state_footprint filterState.
Proof.
  pose proof stays_within_filterState_range.
  unfold filterState. stays_within_tac. by repeat split.
Qed.

Lemma stays_within_assign_StorageNodesRlp (stateKey : Hash)
    (v : gmap Hash bytes) :
  stays_within storage_footprint (assign_StorageNodesRlp stateKey v).
Proof. unfold assign_StorageNodesRlp. stays_within_tac. by repeat split. Qed.

Lemma stays_within_assign_StorageNodesRlp_entry (stateKey key : Hash)
    (v : bytes) :
  stays_within storage_footprint (assign_StorageNodesRlp_entry stateKey key v).
Proof.
  unfold assign_StorageNodesRlp_entry. stays_within_tac. by repeat split.
Qed.

Lemma stays_within_filterStorage_nodes (storageKeyFilters : list Hash)
    (stateKey : Hash) (nodes : list (StorageNode.t Hash)) :
  stays_within storage_footprint
    (filterStorage_nodes storageKeyFilters stateKey nodes).
Proof.
  pose proof stays_within_assign_StorageNodesRlp_entry.
  induction nodes; simpl; stays_within_tac.
Qed.

Lemma stays_within_filterStorage_range
    (stateKeyFilters storageKeyFilters : list Hash)
    (accounts : list (Hash * list (StorageNode.t Hash))) :
  stays_within storage_footprint
    (filterStorage_range stateKeyFilters storageKeyFilters accounts).
Proof.
  pose proof stays_within_assign_StorageNodesRlp.
  pose proof stays_within_filterStorage_nodes.
  induction accounts as [|[? ?] ? ?]; simpl; stays_within_tac.
Qed.

Lemma stays_within_filterStorage :
  stays_within storage_footprint filterStorage.
Proof.
  pose proof stays_within_filterStorage_range.
  unfold filterStorage. stays_within_tac.
Qed.

(** X1. Each pass writes only its own part of the response, whatever its
    outcome (success, error or panic): the header pass only appends to the
    header and uncle lists, the transaction pass only appends to the
    transaction list, the receipt pass only appends to the receipt list,
    the state pass only writes the state-node map and the storage pass only
    writes the storage-node map. What the response held in its lists before
    a pass is still there, in front, after it. *)
Theorem passes_write_their_own_fields (s : Store) :
  headers_footprint (response s) (response (filterHeaders s).2) ∧
  transactions_footprint (response s) (response (filterTransactions s).2) ∧
  receipts_footprint (response s) (response (filerReceipts s).2) ∧
  state_footprint (response s) (response (filterState s).2) ∧
  storage_footprint (response s) (response (filterStorage s).2).
Proof.
  split; [apply stays_within_filterHeaders |].
  split; [apply stays_within_filterTransactions |].
  split; [apply stays_within_filerReceipts |].
  split; [apply stays_within_filterState | apply stays_within_filterStorage].
Qed.

End Footprints.

Section FurtherProperties.
Context `{C : Collaborators}.

(** ** Gates *)

Lemma Int64_fits (x : Z) :
  (- 2 ^ 63 ≤ x < 2 ^ 63)%Z → Int64 x = x.
Proof.
  change (2 ^ 63)%Z with 9223372036854775808%Z. intros Hx.
  unfold Int64, int64_of_uint64, int64_neg.
  change (2 ^ 63)%Z with 9223372036854775808%Z.
  change (2 ^ 64)%Z with 18446744073709551616%Z.
  destruct (x <? 0)%Z eqn:Hneg;
    [apply Z.ltb_lt in Hneg; rewrite Z.abs_neq by lia
    |apply Z.ltb_ge in Hneg; rewrite Z.abs_eq by lia];
    rewrite Z.mod_small by lia;
    repeat match goal with
           | |- context [if ?b then _ else _] => destruct b eqn:?
           end;
    rewrite ?Z.ltb_lt, ?Z.ltb_ge, ?Z.eqb_eq, ?Z.eqb_neq in *; lia.
Qed.

Lemma gate_requested (off : bool) (start end_ bn : Z) :
  negb off && checkRange start end_ bn = true ↔ requested off start end_ bn.
Proof.
  unfold requested, checkRange.
  destruct off, (end_ <=? 0)%Z eqn:H1, (end_ >=? bn)%Z eqn:H2,
    (start <=? bn)%Z eqn:H3; simpl; split; try done; try lia;
    intros (? & ? & ?); try done; lia.
Qed.

Lemma gate_not_requested (off : bool) (start end_ bn : Z) :
  ¬ requested off start end_ bn →
  negb off && checkRange start end_ bn = false.
Proof.
  intros Hnot. apply not_true_is_false. by rewrite gate_requested.
Qed.

(** X2. A pass that is not requested for the block of the payload (its
    filter is off, or the block number, one that fits in an int64, is
    outside its range) does nothing: the header, transaction, receipt and
    storage passes leave the store as it is and return no error, whatever
    the payload holds (metadata that is too short included), and the state
    pass only sets the state-node map to a fresh empty map. *)
Theorem unrequested_pass_does_nothing (s : Store) :
  (- 2 ^ 63 ≤ BlockNumber (payload s) < 2 ^ 63)%Z →
  let bn := BlockNumber (payload s) in
  (¬ requested (HeaderFilter.Off (HeaderFilter (filters s)))
       (HeaderFilter.StartingBlock (HeaderFilter (filters s)))
       (HeaderFilter.EndingBlock (HeaderFilter (filters s))) bn →
   filterHeaders s = (Val None, s)) ∧
  (¬ requested (TrxFilter.Off (TrxFilter (filters s)))
       (TrxFilter.StartingBlock (TrxFilter (filters s)))
       (TrxFilter.EndingBlock (TrxFilter (filters s))) bn →
   filterTransactions s = (Val None, s)) ∧
  (¬ requested (ReceiptFilter.Off (ReceiptFilter (filters s)))
       (ReceiptFilter.StartingBlock (ReceiptFilter (filters s)))
       (ReceiptFilter.EndingBlock (ReceiptFilter (filters s))) bn →
   filerReceipts s = (Val None, s)) ∧
  (¬ requested (StateFilter.Off (StateFilter (filters s)))
       (StateFilter.StartingBlock (StateFilter (filters s)))
       (StateFilter.EndingBlock (StateFilter (filters s))) bn →
   filterState s
     = (Val None, with_response (set_StateNodesRlp (Some ∅)) s)) ∧
  (¬ requested (StorageFilter.Off (StorageFilter (filters s)))
       (StorageFilter.StartingBlock (StorageFilter (filters s)))
       (StorageFilter.EndingBlock (StorageFilter (filters s))) bn →
   filterStorage s = (Val None, s)).
Proof.
  intros Hfits bn.
  split; [|split; [|split; [|split]]]; intros Hnot%gate_not_requested.
  - rewrite filterHeaders_eq. unfold headersWanted.
    rewrite (Int64_fits _ Hfits). fold bn. by rewrite Hnot.
  - apply filterTransactions_skip. unfold transactionsWanted.
    rewrite (Int64_fits _ Hfits). done.
  - apply filerReceipts_skip. unfold receiptsWanted.
    rewrite (Int64_fits _ Hfits). done.
  - rewrite filterState_eq. unfold stateWanted.
    rewrite (Int64_fits _ Hfits). fold bn. by rewrite Hnot.
  - unfold filterStorage, bind, get.
    rewrite (Int64_fits _ Hfits). fold bn. by rewrite Hnot.
Qed.

(** X3. In a successfully returned response every category whose range
    does not contain the block of the payload is empty: no header and no
    uncle, no transaction, no receipt, and an empty state-node map. *)
Theorem ScreenResponse_out_of_range_empty (streamFilters : StreamFilters)
    (payload0 : IPLDPayload) (r : ResponsePayload) (s' : Store) :
  ScreenResponse streamFilters payload0 = (Val (Some r, None), s') →
  let bn := Int64 (BlockNumber payload0) in
  (checkRange (HeaderFilter.StartingBlock (HeaderFilter streamFilters))
              (HeaderFilter.EndingBlock (HeaderFilter streamFilters)) bn
     = false →
   HeadersRlp r = [] ∧ UnclesRlp r = []) ∧
  (checkRange (TrxFilter.StartingBlock (TrxFilter streamFilters))
              (TrxFilter.EndingBlock (TrxFilter streamFilters)) bn = false →
   TransactionsRlp r = []) ∧
  (checkRange (ReceiptFilter.StartingBlock (ReceiptFilter streamFilters))
              (ReceiptFilter.EndingBlock (ReceiptFilter streamFilters)) bn
     = false →
   ReceiptsRlp r = []) ∧
  (checkRange (StateFilter.StartingBlock (StateFilter streamFilters))
              (StateFilter.EndingBlock (StateFilter streamFilters)) bn
     = false →
   StateNodesRlp r = Some ∅).
Proof.
  intros (us & ts & rs & -> & Hus & Hts & Hrs)%ScreenResponse_success bn.
  simpl. split; [|split; [|split]]; intros Hout.
  - unfold headersWanted in *. fold bn in Hus |- *.
    rewrite Hout, andb_false_r in *. done.
  - unfold transactionsWanted in Hts. fold bn in Hts.
    by rewrite Hout, andb_false_r in Hts.
  - unfold receiptsWanted in Hrs. fold bn in Hrs.
    by rewrite Hout, andb_false_r in Hrs.
  - unfold stateWanted. fold bn. by rewrite Hout, andb_false_r.
Qed.

(** ** Metadata that is too short *)

Ltac index_step Hi :=
  unfold bind, get, index; simpl;
  match goal with
  | |- context [?metas !! ?i] => destruct (metas !! i) as [meta|] eqn:Hi
  end.

Lemma filterTransactions_range_short (trxs : list Transaction) (i : nat)
    (s : Store) :
  i ≤ length (TrxMetaData (payload s)) →
  length (drop i (TrxMetaData (payload s))) < length trxs →
  let ts := encode_list Transaction_EncodeRLP
              (selected (matchesTrx (filters s)) trxs
                        (drop i (TrxMetaData (payload s)))) in
  ts.2 = None →
  filterTransactions_range i trxs s =
  (Panic (IndexOutOfRange (length (TrxMetaData (payload s)))
                          (length (TrxMetaData (payload s)))),
   with_response (λ r, set_TransactionsRlp (TransactionsRlp r ++ ts.1) r) s).
Proof.
  revert i s. induction trxs as [|trx rest IH]; intros i s Hi Hlen;
    [simpl in Hlen; lia |].
  cbn [filterTransactions_range]. index_step Hm.
  - assert (i < length (TrxMetaData (payload s))) as Hlt
      by (by eapply lookup_lt_Some).
    rewrite (drop_lookup_Some _ _ _ Hm) in Hlen |- *. simpl in Hlen.
    cbn [selected]. unfold ret at 1.
    destruct (matchesTrx (filters s) meta) eqn:Hmatch;
      unfold matchesTrx in Hmatch; rewrite Hmatch.
    + cbn [encode_list]. destruct (Transaction_EncodeRLP trx) as [b|e];
        [|discriminate].
      simpl. intros Hnone. unfold modify_response.
      rewrite IH by (simpl; (done || lia)). simpl.
      f_equal. unfold with_response. simpl. f_equal.
      unfold set_TransactionsRlp. simpl. by rewrite <- app_assoc.
    + intros Hnone. by rewrite IH by (done || lia).
  - apply lookup_ge_None in Hm.
    assert (i = length (TrxMetaData (payload s))) as -> by lia.
    rewrite drop_all. simpl. intros _. unfold raise. f_equal.
    symmetry. rewrite <- (with_response_id s) at 2.
    apply with_response_ext, append_TransactionsRlp_nil.
Qed.

Lemma filerReceipts_range_short (receipts : list Receipt) (i : nat)
    (s : Store) :
  i ≤ length (ReceiptMetaData (payload s)) →
  length (drop i (ReceiptMetaData (payload s))) < length receipts →
  let rs := encode_list Receipt_EncodeRLP
              (selected (matchesReceipt (filters s)) receipts
                        (drop i (ReceiptMetaData (payload s)))) in
  rs.2 = None →
  filerReceipts_range i receipts s =
  (Panic (IndexOutOfRange (length (ReceiptMetaData (payload s)))
                          (length (ReceiptMetaData (payload s)))),
   with_response (λ r, set_ReceiptsRlp (ReceiptsRlp r ++ rs.1) r) s).
Proof.
  revert i s. induction receipts as [|receipt rest IH]; intros i s Hi Hlen;
    [simpl in Hlen; lia |].
  cbn [filerReceipts_range]. index_step Hm.
  - assert (i < length (ReceiptMetaData (payload s))) as Hlt
      by (by eapply lookup_lt_Some).
    rewrite (drop_lookup_Some _ _ _ Hm) in Hlen |- *. simpl in Hlen.
    cbn [selected]. unfold ret at 1.
    destruct (matchesReceipt (filters s) meta) eqn:Hmatch;
      unfold matchesReceipt in Hmatch; rewrite Hmatch.
    + cbn [encode_list]. destruct (Receipt_EncodeRLP receipt) as [b|e];
        [|discriminate].
      simpl. intros Hnone. unfold modify_response.
      rewrite IH by (simpl; (done || lia)). simpl.
      f_equal. unfold with_response. simpl. f_equal.
      unfold set_ReceiptsRlp. simpl. by rewrite <- app_assoc.
    + intros Hnone. by rewrite IH by (done || lia).
  - apply lookup_ge_None in Hm.
    assert (i = length (ReceiptMetaData (payload s))) as -> by lia.
    rewrite drop_all. simpl. intros _. unfold raise. f_equal.
    symmetry. rewrite <- (with_response_id s) at 2.
    apply with_response_ext, append_ReceiptsRlp_nil.
Qed.

(** X4. A requested transaction pass over a payload with fewer metadata
    entries than transactions panics with an index out of range at the
    length of the metadata array, provided no transaction met before that
    point fails to encode; by then it has appended the encodings of the
    matching transactions that do have metadata. *)
Theorem filterTransactions_short_metadata_panics (s : Store) :
  transactionsWanted (filters s) (payload s) = true →
  length (TrxMetaData (payload s))
    < length (Body.Transactions (BlockBody (payload s))) →
  (∀ trx, trx ∈ matchedTransactions (filters s) (payload s) →
          ∃ b, Transaction_EncodeRLP trx = inl b) →
  ∃ bs,
    encodings Transaction_EncodeRLP
      (matchedTransactions (filters s) (payload s)) bs ∧
    filterTransactions s =
    (Panic (IndexOutOfRange (length (TrxMetaData (payload s)))
                            (length (TrxMetaData (payload s)))),
     with_response (λ r, set_TransactionsRlp (TransactionsRlp r ++ bs) r) s).
Proof.
  intros Hgate Hlen Hall.
  pose proof (encode_list_total _ _ Hall) as Hnone.
  eexists. split; [by apply encode_list_None |].
  unfold filterTransactions, bind, get.
  unfold transactionsWanted in Hgate. rewrite Hgate.
  by rewrite filterTransactions_range_short by (done || simpl; lia).
Qed.

(** X5. A requested receipt pass over a payload with fewer metadata
    entries than receipts panics with an index out of range at the length
    of the metadata array, provided no receipt met before that point fails
    to encode; by then it has appended the encodings of the matching
    receipts that do have metadata. *)
Theorem filerReceipts_short_metadata_panics (s : Store) :
  receiptsWanted (filters s) (payload s) = true →
  length (ReceiptMetaData (payload s)) < length (Receipts (payload s)) →
  (∀ receipt, receipt ∈ matchedReceipts (filters s) (payload s) →
              ∃ b, Receipt_EncodeRLP receipt = inl b) →
  ∃ bs,
    encodings Receipt_EncodeRLP (matchedReceipts (filters s) (payload s)) bs ∧
    filerReceipts s =
    (Panic (IndexOutOfRange (length (ReceiptMetaData (payload s)))
                            (length (ReceiptMetaData (payload s)))),
     with_response (λ r, set_ReceiptsRlp (ReceiptsRlp r ++ bs) r) s).
Proof.
  intros Hgate Hlen Hall.
  pose proof (encode_list_total _ _ Hall) as Hnone.
  eexists. split; [by apply encode_list_None |].
  unfold filerReceipts, bind, get.
  unfold receiptsWanted in Hgate. rewrite Hgate.
  by rewrite filerReceipts_range_short by (done || simpl; lia).
Qed.

End FurtherProperties.

Section WholeCall.
Context `{C : Collaborators}.

(** ** Errors *)

Lemma filterTransactions_error (s s' : Store) (e : error) :
  filterTransactions s = (Val (Some e), s') →
  transactionsWanted (filters s) (payload s) = true ∧
  ∃ trx, trx ∈ matchedTransactions (filters s) (payload s) ∧
         Transaction_EncodeRLP trx = inr e.
Proof.
  destruct (transactionsWanted (filters s) (payload s)) eqn:Hgate.
  - intros Hrun. split; [done |].
    unfold filterTransactions, bind, get in Hrun.
    unfold transactionsWanted in Hgate. rewrite Hgate in Hrun.
    exact (filterTransactions_range_error _ 0 _ _ _ Hrun).
  - by rewrite filterTransactions_skip.
Qed.

Lemma filerReceipts_error (s s' : Store) (e : error) :
  filerReceipts s = (Val (Some e), s') →
  receiptsWanted (filters s) (payload s) = true ∧
  ∃ receipt, receipt ∈ matchedReceipts (filters s) (payload s) ∧
             Receipt_EncodeRLP receipt = inr e.
Proof.
  destruct (receiptsWanted (filters s) (payload s)) eqn:Hgate.
  - intros Hrun. split; [done |].
    unfold filerReceipts, bind, get in Hrun.
    unfold receiptsWanted in Hgate. rewrite Hgate in Hrun.
    exact (filerReceipts_range_error _ 0 _ _ _ Hrun).
  - by rewrite filerReceipts_skip.
Qed.

Lemma filterHeaders_error (s s' : Store) (e : error) :
  filterHeaders s = (Val (Some e), s') →
  headersWanted (filters s) (payload s) = true ∧
  HeaderFilter.Uncles (HeaderFilter (filters s)) = true ∧
  ∃ uncle, uncle ∈ Body.Uncles (BlockBody (payload s)) ∧
           EncodeToBytes uncle = inr e.
Proof.
  rewrite filterHeaders_eq.
  destruct (headersWanted _ _); [|discriminate].
  destruct (HeaderFilter.Uncles _); [|discriminate].
  simpl. intros [= Hsome _]. by apply encode_list_Some in Hsome.
Qed.

Lemma filterStorage_no_error (s s' : Store) (out : option error) :
  filterStorage s = (Val out, s') → out = None.
Proof.
  unfold filterStorage, bind, get.
  destruct (negb _ && _); [|by intros [= <- _]].
  destruct (filterStorage_range _ _ _ s) as [[[]|p] s1];
    [by intros [= <- _] | discriminate].
Qed.

Lemma pass_inputs {A} (m : M A) (s s' : Store) (x : res A) :
  reads_inputs m → m s = (x, s') →
  filters s' = filters s ∧ payload s' = payload s.
Proof. intros Hm Hrun. specialize (Hm s). by rewrite Hrun in Hm. Qed.

(** X6. Every error [ScreenResponse] returns is the error of an encoder,
    and comes with a nil response: it is the failure of an uncle of the
    payload (with the header pass requested and uncles included), of a
    transaction matched by a requested transaction pass, or of a receipt
    matched by a requested receipt pass. The state and storage passes
    return no error. *)
Theorem ScreenResponse_error_provenance (streamFilters : StreamFilters)
    (payload0 : IPLDPayload) (resp : option ResponsePayload) (e : error)
    (s' : Store) :
  ScreenResponse streamFilters payload0 = (Val (resp, Some e), s') →
  resp = None ∧
  ((headersWanted streamFilters payload0 = true ∧
    HeaderFilter.Uncles (HeaderFilter streamFilters) = true ∧
    ∃ uncle, uncle ∈ Body.Uncles (BlockBody payload0) ∧
             EncodeToBytes uncle = inr e) ∨
   (transactionsWanted streamFilters payload0 = true ∧
    ∃ trx, trx ∈ matchedTransactions streamFilters payload0 ∧
           Transaction_EncodeRLP trx = inr e) ∨
   (receiptsWanted streamFilters payload0 = true ∧
    ∃ receipt, receipt ∈ matchedReceipts streamFilters payload0 ∧
               Receipt_EncodeRLP receipt = inr e)).
Proof.
  unfold ScreenResponse, screen. intros Hrun.
  apply bind_Val_inv in Hrun as ([e1|] & s1 & H1 & Hrun).
  { unfold ret in Hrun. injection Hrun as <- <- _.
    split; [done |]. left. by apply filterHeaders_error in H1. }
  destruct (pass_inputs _ _ _ _ reads_inputs_filterHeaders H1) as [Hf1 Hp1].
  simpl in Hf1, Hp1.
  apply bind_Val_inv in Hrun as ([e2|] & s2 & H2 & Hrun).
  { unfold ret in Hrun. injection Hrun as <- <- _.
    split; [done |]. right. left.
    apply filterTransactions_error in H2. by rewrite Hf1, Hp1 in H2. }
  destruct (pass_inputs _ _ _ _ reads_inputs_filterTransactions H2)
    as [Hf2 Hp2].
  apply bind_Val_inv in Hrun as ([e3|] & s3 & H3 & Hrun).
  { unfold ret in Hrun. injection Hrun as <- <- _.
    split; [done |]. right. right.
    apply filerReceipts_error in H3. by rewrite Hf2, Hp2, Hf1, Hp1 in H3. }
  apply bind_Val_inv in Hrun as ([e4|] & s4 & H4 & Hrun).
  { by rewrite filterState_eq in H4. }
  apply bind_Val_inv in Hrun as (e5 & s5 & H5 & Hrun).
  apply filterStorage_no_error in H5 as ->.
  unfold bind, get, ret in Hrun. discriminate.
Qed.

Lemma encode_list_first_failure {A E} (enc : A → bytes + E)
    (good : list A) (bad : A) (rest : list A) (e : E) :
  (∀ x, x ∈ good → ∃ b, enc x = inl b) →
  enc bad = inr e →
  encode_list enc (good ++ bad :: rest) = ((encode_list enc good).1, Some e) ∧
  encodings enc good (encode_list enc good).1.
Proof.
  intros Hgood Hbad. induction good as [|x good IH]; simpl.
  - rewrite Hbad. split; [done | constructor].
  - destruct (Hgood x (list_elem_of_here _ _)) as [b Hx]. rewrite Hx.
    destruct IH as [-> Henc].
    { intros y Hy. apply Hgood. by apply list_elem_of_further. }
    simpl. split; [done |]. by constructor.
Qed.

(** X7. The call stops at the first uncle that does not encode: with the
    header pass requested and uncles included, if the uncles before some
    uncle all encode and that uncle fails with [e], the call returns [e]
    and a nil response, whatever the rest of the payload and of the
    filters. No later pass has run by then: the response left behind holds
    the header and the encodings of the uncles before the failing one, and
    nothing else (its state-node map is still nil). *)
Theorem ScreenResponse_stops_at_first_bad_uncle
    (streamFilters : StreamFilters) (payload0 : IPLDPayload)
    (good : list Header) (bad : Header) (rest : list Header) (e : error) :
  headersWanted streamFilters payload0 = true →
  HeaderFilter.Uncles (HeaderFilter streamFilters) = true →
  Body.Uncles (BlockBody payload0) = good ++ bad :: rest →
  (∀ uncle, uncle ∈ good → ∃ b, EncodeToBytes uncle = inl b) →
  EncodeToBytes bad = inr e →
  ∃ bs,
    encodings EncodeToBytes good bs ∧
    ScreenResponse streamFilters payload0 =
    (Val (None, Some e),
     mkStore streamFilters payload0
       (mkResponsePayload [HeaderRLP payload0] bs [] [] None None)).
Proof.
  intros Hgate Huncles Hsplit Hgood Hbad.
  destruct (encode_list_first_failure _ _ _ rest _ Hgood Hbad) as [Heq Henc].
  eexists. split; [exact Henc |].
  unfold ScreenResponse, screen, bind. rewrite filterHeaders_eq. simpl.
  rewrite Hgate, Huncles, Hsplit, Heq. done.
Qed.

(** ** Outcome of the whole call *)

(** The first four passes of a call whose metadata is long enough and
    whose encoders succeed on what the requested passes encode: the call
    is then decided by the storage pass, run on a response whose
    storage-node map is nil. *)
Lemma screen_upto_storage (streamFilters : StreamFilters)
    (payload0 : IPLDPayload) :
  (headersWanted streamFilters payload0
   && HeaderFilter.Uncles (HeaderFilter streamFilters) = true →
   ∀ uncle, uncle ∈ Body.Uncles (BlockBody payload0) →
            ∃ b, EncodeToBytes uncle = inl b) →
  (transactionsWanted streamFilters payload0 = true →
   length (Body.Transactions (BlockBody payload0))
     ≤ length (TrxMetaData payload0) ∧
   ∀ trx, trx ∈ matchedTransactions streamFilters payload0 →
          ∃ b, Transaction_EncodeRLP trx = inl b) →
  (receiptsWanted streamFilters payload0 = true →
   length (Receipts payload0) ≤ length (ReceiptMetaData payload0) ∧
   ∀ receipt, receipt ∈ matchedReceipts streamFilters payload0 →
              ∃ b, Receipt_EncodeRLP receipt = inl b) →
  ∃ s4,
    filters s4 = streamFilters ∧ payload s4 = payload0 ∧
    StorageNodesRlp (response s4) = None ∧
    ScreenResponse streamFilters payload0 =
    match filterStorage s4 with
    | (Val None, s5) => (Val (Some (response s5), None), s5)
    | (Val (Some e), s5) => (Val (None, Some e), s5)
    | (Panic p, s5) => (Panic p, s5)
    end.
Proof.
  intros Hu Ht Hr.
  unfold ScreenResponse, screen.
  set (s0 := mkStore streamFilters payload0 new_ResponsePayload).
  assert (∃ s1, filterHeaders s0 = (Val None, s1) ∧
                filters s1 = streamFilters ∧ payload s1 = payload0 ∧
                StorageNodesRlp (response s1) = None)
    as (s1 & H1 & Hf1 & Hp1 & Hn1).
  { rewrite filterHeaders_eq. simpl.
    destruct (headersWanted _ _); [destruct (HeaderFilter.Uncles _) |];
      simpl; rewrite ?(encode_list_total _ _ (Hu eq_refl)); eauto. }
  assert (∃ s2, filterTransactions s1 = (Val None, s2) ∧
                filters s2 = streamFilters ∧ payload s2 = payload0 ∧
                StorageNodesRlp (response s2) = None)
    as (s2 & H2 & Hf2 & Hp2 & Hn2).
  { destruct (transactionsWanted (filters s1) (payload s1)) eqn:Hgate.
    - pose proof Hgate as Hgate'. rewrite Hf1, Hp1 in Hgate'.
      destruct (Ht Hgate') as [Hlen Hall].
      rewrite filterTransactions_eq by (done || (rewrite Hp1; done)). simpl.
      rewrite Hf1, Hp1, (encode_list_total _ _ Hall). eauto.
    - rewrite filterTransactions_skip by done. eauto. }
  assert (∃ s3, filerReceipts s2 = (Val None, s3) ∧
                filters s3 = streamFilters ∧ payload s3 = payload0 ∧
                StorageNodesRlp (response s3) = None)
    as (s3 & H3 & Hf3 & Hp3 & Hn3).
  { destruct (receiptsWanted (filters s2) (payload s2)) eqn:Hgate.
    - pose proof Hgate as Hgate'. rewrite Hf2, Hp2 in Hgate'.
      destruct (Hr Hgate') as [Hlen Hall].
      rewrite filerReceipts_eq by (done || (rewrite Hp2; done)). simpl.
      rewrite Hf2, Hp2, (encode_list_total _ _ Hall). eauto.
    - rewrite filerReceipts_skip by done. eauto. }
  exists (filterState s3).2.
  unfold bind at 1. rewrite H1. unfold bind at 1. rewrite H2.
  unfold bind at 1. rewrite H3. unfold bind at 1.
  rewrite filterState_eq. simpl.
  split; [done |]. split; [done |]. split; [done |].
  unfold bind at 1.
  destruct (filterStorage _) as [[[e|]|p] s5]; reflexivity.
Qed.

(** X8. [ScreenResponse] returns a response and no error whenever, for
    the passes that are requested, every transaction and receipt has its
    metadata, every uncle to include and every matched transaction and
    receipt encodes, and the storage pass, if requested, finds no account
    whose state key matches. The store it leaves holds the filters and the
    payload it was given, and the storage-node map of the response is
    nil. *)
Theorem ScreenResponse_returns_a_response (streamFilters : StreamFilters)
    (payload0 : IPLDPayload) :
  (headersWanted streamFilters payload0
   && HeaderFilter.Uncles (HeaderFilter streamFilters) = true →
   ∀ uncle, uncle ∈ Body.Uncles (BlockBody payload0) →
            ∃ b, EncodeToBytes uncle = inl b) →
  (transactionsWanted streamFilters payload0 = true →
   length (Body.Transactions (BlockBody payload0))
     ≤ length (TrxMetaData payload0) ∧
   ∀ trx, trx ∈ matchedTransactions streamFilters payload0 →
          ∃ b, Transaction_EncodeRLP trx = inl b) →
  (receiptsWanted streamFilters payload0 = true →
   length (Receipts payload0) ≤ length (ReceiptMetaData payload0) ∧
   ∀ receipt, receipt ∈ matchedReceipts streamFilters payload0 →
              ∃ b, Receipt_EncodeRLP receipt = inl b) →
  (storageWanted streamFilters payload0 = true →
   ∀ stateKey storageNodes,
     StorageNodes payload0 !! stateKey = Some storageNodes →
     checkNodeKeys
       (addressKeys (StorageFilter.Addresses (StorageFilter streamFilters)))
       stateKey = false) →
  ∃ r,
    ScreenResponse streamFilters payload0
      = (Val (Some r, None), mkStore streamFilters payload0 r) ∧
    StorageNodesRlp r = None.
Proof.
  intros Hu Ht Hr Hs.
  destruct (screen_upto_storage _ _ Hu Ht Hr) as (s4 & Hf4 & Hp4 & Hn4 & ->).
  rewrite filterStorage_nil by done. rewrite Hf4, Hp4.
  assert (storageWanted streamFilters payload0
          && existsb (λ account : Hash * list (StorageNode.t Hash),
               checkNodeKeys
                 (addressKeys
                    (StorageFilter.Addresses (StorageFilter streamFilters)))
                 account.1)
               (map_to_list (StorageNodes payload0)) = false) as ->.
  { destruct (storageWanted streamFilters payload0) eqn:Hgate; [|done].
    simpl. apply not_true_is_false.
    intros ([stateKey nodes] & Hin & Hkey)%existsb_exists.
    apply list_elem_of_In, elem_of_map_to_list in Hin.
    simpl in Hkey. by rewrite (Hs eq_refl _ _ Hin) in Hkey. }
  exists (response s4). split; [|done].
  f_equal. destruct s4. simpl in *. by subst.
Qed.

(** X9. When the storage pass is requested and the payload has an account
    whose state key matches, a call that gets as far as the storage pass
    (metadata long enough, encoders succeeding on what the requested
    passes encode) panics with an assignment to an entry in a nil map:
    nothing has made the storage-node map of the response. *)
Theorem ScreenResponse_storage_match_panics (streamFilters : StreamFilters)
    (payload0 : IPLDPayload) (stateKey : Hash)
    (storageNodes : list (StorageNode.t Hash)) :
  (headersWanted streamFilters payload0
   && HeaderFilter.Uncles (HeaderFilter streamFilters) = true →
   ∀ uncle, uncle ∈ Body.Uncles (BlockBody payload0) →
            ∃ b, EncodeToBytes uncle = inl b) →
  (transactionsWanted streamFilters payload0 = true →
   length (Body.Transactions (BlockBody payload0))
     ≤ length (TrxMetaData payload0) ∧
   ∀ trx, trx ∈ matchedTransactions streamFilters payload0 →
          ∃ b, Transaction_EncodeRLP trx = inl b) →
  (receiptsWanted streamFilters payload0 = true →
   length (Receipts payload0) ≤ length (ReceiptMetaData payload0) ∧
   ∀ receipt, receipt ∈ matchedReceipts streamFilters payload0 →
              ∃ b, Receipt_EncodeRLP receipt = inl b) →
  storageWanted streamFilters payload0 = true →
  StorageNodes payload0 !! stateKey = Some storageNodes →
  checkNodeKeys
    (addressKeys (StorageFilter.Addresses (StorageFilter streamFilters)))
    stateKey = true →
  (ScreenResponse streamFilters payload0).1 = Panic NilMapAssignment.
Proof.
  intros Hu Ht Hr Hgate Hnodes Hkey.
  destruct (screen_upto_storage _ _ Hu Ht Hr) as (s4 & Hf4 & Hp4 & Hn4 & ->).
  rewrite filterStorage_nil by done. rewrite Hf4, Hp4, Hgate.
  assert (existsb (λ account : Hash * list (StorageNode.t Hash),
               checkNodeKeys
                 (addressKeys
                    (StorageFilter.Addresses (StorageFilter streamFilters)))
                 account.1)
               (map_to_list (StorageNodes payload0)) = true) as ->; [|done].
  apply existsb_exists. exists (stateKey, storageNodes).
  split; [|done]. apply list_elem_of_In. by apply elem_of_map_to_list.
Qed.


End WholeCall.

Section NodePasses.
Context `{C : Collaborators}.

(** ** Requested keys *)

Lemma addressKeys_match (addrs : list string) (key : Hash) :
  checkNodeKeys (addressKeys addrs) key = true ↔
  addrs = [] ∨ ∃ addr, addr ∈ addrs ∧ AddressToKey (HexToAddress addr) = key.
Proof.
  rewrite checkNodeKeys_true. unfold addressKeys.
  rewrite list_elem_of_fmap. split.
  - intros [Hnil | (addr & -> & Hin)]; [|eauto].
    left. by apply fmap_nil_inv in Hnil.
  - intros [-> | (addr & Hin & <-)]; [by left | eauto].
Qed.

Lemma storageKeys_match (stores : list string) (key : Hash) :
  checkNodeKeys (storageKeys stores) key = true ↔
  stores = [] ∨ ∃ store, store ∈ stores ∧ HexToKey store = key.
Proof.
  rewrite checkNodeKeys_true. unfold storageKeys.
  rewrite list_elem_of_fmap. split.
  - intros [Hnil | (store & -> & Hin)]; [|eauto].
    left. by apply fmap_nil_inv in Hnil.
  - intros [-> | (store & Hin & <-)]; [by left | eauto].
Qed.

(** ** The state pass *)

(** X10. The state pass never fails and never panics, and the state-node
    map it leaves does not depend on what the response held before: a key
    is bound to a value in it exactly when the pass is requested, the
    payload has a state node under that key, the filter names no address
    or names one whose derived trie key is that key, the node is a leaf or
    intermediate nodes are requested, and the value is the raw value of the
    node. Keys of other nodes, and keys the payload does not have, are
    absent. *)
Theorem filterState_exact (s : Store) :
  ∃ m,
    filterState s
      = (Val None, with_response (set_StateNodesRlp (Some m)) s) ∧
    ∀ key v,
      m !! key = Some v ↔
      stateWanted (filters s) (payload s) = true ∧
      ∃ node,
        StateNodes (payload s) !! key = Some node ∧
        (StateFilter.Addresses (StateFilter (filters s)) = [] ∨
         ∃ addr, addr ∈ StateFilter.Addresses (StateFilter (filters s)) ∧
                 AddressToKey (HexToAddress addr) = key) ∧
        (StateNode.Leaf node = true ∨
         StateFilter.IntermediateNodes (StateFilter (filters s)) = true) ∧
        v = StateNode.Value node.
Proof.
  eexists. split; [apply filterState_eq |].
  intros key v. destruct (stateWanted (filters s) (payload s)).
  - rewrite foldl_stateStep_map_to_list.
    destruct (StateNodes (payload s) !! key) as [node|].
    + destruct (checkNodeKeys _ key) eqn:Hkey.
      * apply addressKeys_match in Hkey.
        destruct (StateNode.Leaf node) eqn:Hleaf,
          (StateFilter.IntermediateNodes _) eqn:Hinter; simpl.
        all: split;
          [ intros Hv;
            first [ discriminate
                  | injection Hv as <-; split; [done |];
                    exists node; rewrite ?Hleaf; repeat split; auto ]
          | intros (_ & node' & Hn & _ & Hincl & ->); injection Hn as <-;
            try done; destruct Hincl; congruence ].
      * simpl. split; [done |].
        intros (_ & node' & [= <-] & Haddr%addressKeys_match & _).
        congruence.
    + split; [done |]. by intros (_ & node' & ? & _).
  - rewrite lookup_empty. split; [done |]. by intros [? _].
Qed.

(** X11. The state loop does not depend on the order in which the range
    over the payload's state-node map visits the entries: on a response
    whose state-node map is made, every order of the entries leaves the
    same store, in which a key of the payload is bound to the value of its
    node when the node is included and keeps its earlier binding
    otherwise. *)
Theorem filterState_range_order_irrelevant (keyFilters : list Hash)
    (intermediateNodes : bool) (nodes : gmap Hash StateNode.t)
    (order : list (Hash * StateNode.t)) (s : Store) (m : gmap Hash bytes) :
  order ≡ₚ map_to_list nodes →
  StateNodesRlp (response s) = Some m →
  ∃ m',
    filterState_range keyFilters intermediateNodes order s
      = (Val tt, with_response (set_StateNodesRlp (Some m')) s) ∧
    filterState_range keyFilters intermediateNodes (map_to_list nodes) s
      = (Val tt, with_response (set_StateNodesRlp (Some m')) s) ∧
    ∀ k,
      m' !! k =
      match nodes !! k with
      | Some node =>
          if checkNodeKeys keyFilters k
             && (StateNode.Leaf node || intermediateNodes)
          then Some (StateNode.Value node)
          else m !! k
      | None => m !! k
      end.
Proof.
  intros Hperm Hm.
  assert (NoDup order.*1) as Hnd
    by (rewrite Hperm; apply NoDup_fst_map_to_list).
  assert (∀ k,
    foldl (stateStep keyFilters intermediateNodes) m order !! k =
    match nodes !! k with
    | Some node =>
        if checkNodeKeys keyFilters k
           && (StateNode.Leaf node || intermediateNodes)
        then Some (StateNode.Value node)
        else m !! k
    | None => m !! k
    end) as Hlookup.
  { intros k. rewrite foldl_stateStep_lookup by done.
    by rewrite (list_to_map_proper order (map_to_list nodes) Hnd Hperm),
      list_to_map_to_list. }
  eexists. split; [by apply filterState_range_eq |]. split; [|done].
  rewrite (filterState_range_eq _ _ _ s m) by done.
  do 4 f_equal. apply map_eq. intros k. rewrite Hlookup.
  rewrite foldl_stateStep_lookup by apply NoDup_fst_map_to_list.
  by rewrite list_to_map_to_list.
Qed.

(** ** The storage pass *)



Lemma foldl_storageStep_last (storageKeyFilters : list Hash)
    (before after : list (StorageNode.t Hash)) (node : StorageNode.t Hash)
    (inner : gmap Hash bytes) :
  StorageNode.Key node ∉ StorageNode.Key <$> after →
  checkNodeKeys storageKeyFilters (StorageNode.Key node) = true →
  foldl (storageStep storageKeyFilters) inner (before ++ node :: after)
    !! StorageNode.Key node
  = Some (StorageNode.Value node).
Proof.
  intros Hafter Hkey. rewrite foldl_app. cbn [foldl].
  rewrite foldl_storageStep_other by done.
  unfold storageStep at 1. rewrite Hkey. by rewrite lookup_insert_eq.
Qed.

(** X13. On a response whose storage-node map is made, a requested
    storage pass returns no error and binds every account of the payload
    whose state key matches (the filter names no address, or one whose
    derived key is the state key) to a fresh map of that account's storage
    nodes: every binding of that map is a storage node of the account whose
    key matches the requested storage keys, with its raw value, and a
    matching node is bound to its value when no later node of the account
    has the same key (of two nodes with one key the later one wins).
    Entries of the outer map under other keys are left as they were. *)
Theorem filterStorage_on_made_map (s : Store)
    (m : gmap Hash (gmap Hash bytes)) :
  StorageNodesRlp (response s) = Some m →
  storageWanted (filters s) (payload s) = true →
  let addrs := StorageFilter.Addresses (StorageFilter (filters s)) in
  let stores := StorageFilter.StorageKeys (StorageFilter (filters s)) in
  let stateMatch (stateKey : Hash) :=
    addrs = [] ∨
    ∃ addr, addr ∈ addrs ∧ AddressToKey (HexToAddress addr) = stateKey in
  let storageMatch (key : Hash) :=
    stores = [] ∨ ∃ store, store ∈ stores ∧ HexToKey store = key in
  ∃ m',
    filterStorage s
      = (Val None, with_response (set_StorageNodesRlp (Some m')) s) ∧
    (∀ stateKey nodes,
       StorageNodes (payload s) !! stateKey = Some nodes →
       stateMatch stateKey →
       ∃ inner,
         m' !! stateKey = Some inner ∧
         (∀ k v, inner !! k = Some v →
            ∃ node, node ∈ nodes ∧ StorageNode.Key node = k ∧
                    StorageNode.Value node = v ∧ storageMatch k) ∧
         (∀ before node after,
            nodes = before ++ node :: after →
            StorageNode.Key node ∉ StorageNode.Key <$> after →
            storageMatch (StorageNode.Key node) →
            inner !! StorageNode.Key node = Some (StorageNode.Value node))) ∧
    (∀ stateKey,
       StorageNodes (payload s) !! stateKey = None ∨ ¬ stateMatch stateKey →
       m' !! stateKey = m !! stateKey).
Proof.
  intros Hm Hgate addrs stores stateMatch storageMatch.
  eexists. split; [|split].
  - unfold filterStorage, bind, get. unfold storageWanted in Hgate.
    rewrite Hgate. by rewrite (filterStorage_range_eq _ _ _ _ m).
  - intros stateKey nodes Hnodes Hkey%addressKeys_match.
    rewrite foldl_accountStep_lookup by apply NoDup_fst_map_to_list.
    rewrite list_to_map_to_list, Hnodes. fold addrs stores. rewrite Hkey.
    eexists. split; [done |]. split.
    + intros k v [Hempty | (node & ? & ? & ? & ?%storageKeys_match)]%foldl_storageStep_sound;
        [by rewrite lookup_empty in Hempty | eauto 6].
    + intros before node after -> Hafter Hmatch%storageKeys_match.
      by apply foldl_storageStep_last.
  - intros stateKey Hother.
    rewrite foldl_accountStep_lookup by apply NoDup_fst_map_to_list.
    rewrite list_to_map_to_list. fold addrs.
    destruct (StorageNodes (payload s) !! stateKey) as [nodes|]; [|done].
    destruct Hother as [? | Hnot]; [done |].
    destruct (checkNodeKeys (addressKeys addrs) stateKey) eqn:Hkey; [|done].
    by apply addressKeys_match in Hkey.
Qed.

(** ** Filters that name nothing *)

Lemma selected_all {A B} (P : B → bool) (items : list A) (metas : list B) :
  (∀ m, P m = true) → length items ≤ length metas →
  selected P items metas = items.
Proof.
  intros HP. revert metas.
  induction items as [|x items IH]; intros [|m metas] Hlen; simpl in *;
    try done; try lia.
  rewrite HP. f_equal. apply IH. lia.
Qed.

Lemma ScreenResponse_success_metadata (streamFilters : StreamFilters)
    (payload0 : IPLDPayload) (r : ResponsePayload) (s' : Store) :
  ScreenResponse streamFilters payload0 = (Val (Some r, None), s') →
  (transactionsWanted streamFilters payload0 = true →
   length (Body.Transactions (BlockBody payload0))
     ≤ length (TrxMetaData payload0)) ∧
  (receiptsWanted streamFilters payload0 = true →
   length (Receipts payload0) ≤ length (ReceiptMetaData payload0)).
Proof.
  unfold ScreenResponse. intros Hrun.
  apply screen_success in Hrun
    as (s1 & s2 & s3 & s4 & H1 & H2 & H3 & _ & _ & _).
  destruct (reads_inputs_filterHeaders
              (mkStore streamFilters payload0 new_ResponsePayload))
    as [Hf1 Hp1].
  rewrite H1 in Hf1, Hp1. simpl in Hf1, Hp1.
  destruct (reads_inputs_filterTransactions s1) as [Hf2 Hp2].
  rewrite H2 in Hf2, Hp2. simpl in Hf2, Hp2.
  split; intros Hgate.
  - unfold filterTransactions, bind, get in H2.
    unfold transactionsWanted in Hgate. rewrite Hf1, Hp1, Hgate in H2.
    apply filterTransactions_range_aligned in H2. by rewrite Hp1 in H2.
  - unfold filerReceipts, bind, get in H3.
    unfold receiptsWanted in Hgate. rewrite Hf2, Hp2, Hf1, Hp1, Hgate in H3.
    apply filerReceipts_range_aligned in H3.
    by rewrite Hp2, Hp1 in H3.
Qed.

(** X14. A requested pass whose filter names nothing returns everything:
    in a successfully returned response, a requested transaction pass with
    no source and no destination address yields the encodings of all the
    transactions of the payload, in order, and a requested receipt pass
    with no topic yields the encodings of all its receipts, in order. A
    successful call with a requested transaction (receipt) pass had
    metadata for every transaction (receipt). *)
Theorem ScreenResponse_empty_filter_returns_all
    (streamFilters : StreamFilters) (payload0 : IPLDPayload)
    (r : ResponsePayload) (s' : Store) :
  ScreenResponse streamFilters payload0 = (Val (Some r, None), s') →
  (transactionsWanted streamFilters payload0 = true →
   length (Body.Transactions (BlockBody payload0))
     ≤ length (TrxMetaData payload0) ∧
   (TrxFilter.Src (TrxFilter streamFilters) = [] →
    TrxFilter.Dst (TrxFilter streamFilters) = [] →
    encodings Transaction_EncodeRLP
      (Body.Transactions (BlockBody payload0)) (TransactionsRlp r))) ∧
  (receiptsWanted streamFilters payload0 = true →
   length (Receipts payload0) ≤ length (ReceiptMetaData payload0) ∧
   (ReceiptFilter.Topic0s (ReceiptFilter streamFilters) = [] →
    encodings Receipt_EncodeRLP (Receipts payload0) (ReceiptsRlp r))).
Proof.
  intros Hrun.
  destruct (ScreenResponse_success_metadata _ _ _ _ Hrun) as [Htl Hrl].
  apply ScreenResponse_success in Hrun
    as (us & ts & rs & -> & Hus & Hts & Hrs).
  simpl. split; intros Hgate.
  - split; [by apply Htl |]. intros Hsrc Hdst.
    rewrite Hgate in Hts. unfold matchedTransactions in Hts.
    rewrite selected_all in Hts; [done | | by apply Htl].
    intros meta. unfold matchesTrx. by rewrite Hsrc, Hdst.
  - split; [by apply Hrl |]. intros Htopics.
    rewrite Hgate in Hrs. unfold matchedReceipts in Hrs.
    rewrite selected_all in Hrs; [done | | by apply Hrl].
    intros meta. unfold matchesReceipt. by rewrite Htopics.
Qed.

End NodePasses.

(** * The further properties on the small instance *)

Lemma unrequested_pass_does_nothing_witness :
  filterHeaders (C := toy)
    (mkStore (C := toy) filters_past payload_short
       (new_ResponsePayload (C := toy)))
  = (Val None,
     mkStore (C := toy) filters_past payload_short
       (new_ResponsePayload (C := toy))) ∧
  filterTransactions (C := toy)
    (mkStore (C := toy) filters_past payload_short
       (new_ResponsePayload (C := toy)))
  = (Val None,
     mkStore (C := toy) filters_past payload_short
       (new_ResponsePayload (C := toy))).
Proof.
  pose proof (unrequested_pass_does_nothing (C := toy)
                (mkStore (C := toy) filters_past payload_short
                   (new_ResponsePayload (C := toy)))
                ltac:(simpl; lia)) as (Hh & Ht & _).
  split; [apply Hh | apply Ht]; unfold requested; simpl; lia.
Defined.

Lemma ScreenResponse_out_of_range_empty_witness :
  ScreenResponse (C := toy) filters_past payload150
    = (Val (Some response_off, None),
       mkStore (C := toy) filters_past payload150 response_off) ∧
  TransactionsRlp response_off = [] ∧
  StateNodesRlp response_off = Some ∅.
Proof.
  assert (ScreenResponse (C := toy) filters_past payload150
          = (Val (Some response_off, None),
             mkStore (C := toy) filters_past payload150 response_off)) as Hrun
    by (vm_compute; reflexivity).
  split; [exact Hrun |].
  destruct (ScreenResponse_out_of_range_empty (C := toy) _ _ _ _ Hrun)
    as (_ & Ht & _ & Hs).
  split; [apply Ht | apply Hs]; reflexivity.
Defined.

Lemma filterTransactions_short_metadata_panics_witness :
  ∃ bs,
    encodings toy_encode [Some b1] bs ∧
    filterTransactions (C := toy) store_short
      = (Panic (IndexOutOfRange 2 2),
         with_response
           (λ r, set_TransactionsRlp (TransactionsRlp r ++ bs) r) store_short).
Proof.
  apply (filterTransactions_short_metadata_panics (C := toy) store_short);
    [reflexivity | simpl; lia |].
  intros trx Htrx. apply list_elem_of_In in Htrx. vm_compute in Htrx.
  destruct Htrx as [<- | []]. eexists. reflexivity.
Defined.

Lemma filerReceipts_short_metadata_panics_witness :
  ∃ bs,
    encodings toy_encode [Some b1] bs ∧
    filerReceipts (C := toy) store_short
      = (Panic (IndexOutOfRange 1 1),
         with_response (λ r, set_ReceiptsRlp (ReceiptsRlp r ++ bs) r)
           store_short).
Proof.
  apply (filerReceipts_short_metadata_panics (C := toy) store_short);
    [reflexivity | simpl; lia |].
  intros receipt Hin. apply list_elem_of_In in Hin. vm_compute in Hin.
  destruct Hin as [<- | []]. eexists. reflexivity.
Defined.

Lemma ScreenResponse_error_provenance_witness :
  ScreenResponse (C := toy) filters_on payload_bad_trx
    = (Val (None, Some "rlp: encoding failed"%string),
       mkStore (C := toy) filters_on payload_bad_trx
         (mkResponsePayload (C := toy) [b1] [] [] [] None None)) ∧
  ∃ trx, trx ∈ [None] ∧ toy_encode trx = inr "rlp: encoding failed"%string.
Proof.
  assert (ScreenResponse (C := toy) filters_on payload_bad_trx
    = (Val (None, Some "rlp: encoding failed"%string),
       mkStore (C := toy) filters_on payload_bad_trx
         (mkResponsePayload (C := toy) [b1] [] [] [] None None))) as Hrun
    by (vm_compute; reflexivity).
  split; [exact Hrun |].
  destruct (ScreenResponse_error_provenance (C := toy) _ _ _ _ _ Hrun)
    as (_ & [(_ & _ & uncle & Hin & _) | [(_ & Htrx) | (_ & receipt & Hin & _)]]).
  - exfalso. by apply elem_of_nil in Hin.
  - exact Htrx.
  - exfalso. by apply elem_of_nil in Hin.
Defined.

Lemma ScreenResponse_stops_at_first_bad_uncle_witness :
  ∃ bs,
    encodings toy_encode [Some b1] bs ∧
    ScreenResponse (C := toy) filters_on payload_bad_uncle
      = (Val (None, Some "rlp: encoding failed"%string),
         mkStore (C := toy) filters_on payload_bad_uncle
           (mkResponsePayload (C := toy) [b1] bs [] [] None None)).
Proof.
  apply (ScreenResponse_stops_at_first_bad_uncle (C := toy)
           filters_on payload_bad_uncle [Some b1] None [Some b3]);
    [reflexivity | reflexivity | reflexivity | | reflexivity].
  intros uncle Hin. apply list_elem_of_In in Hin.
  destruct Hin as [<- | []]. eexists. reflexivity.
Defined.

Lemma ScreenResponse_returns_a_response_witness :
  ∃ r,
    ScreenResponse (C := toy) filters_on payload150
      = (Val (Some r, None), mkStore (C := toy) filters_on payload150 r) ∧
    StorageNodesRlp r = None.
Proof.
  apply (ScreenResponse_returns_a_response (C := toy) filters_on payload150).
  - intros _ uncle Hin. apply list_elem_of_In in Hin.
    destruct Hin as [<- | [<- | []]]; eexists; reflexivity.
  - intros _. split; [simpl; lia |].
    intros trx Hin. apply list_elem_of_In in Hin. vm_compute in Hin.
    destruct Hin as [<- | [<- | []]]; eexists; reflexivity.
  - intros _. split; [simpl; lia |].
    intros receipt Hin. apply list_elem_of_In in Hin. vm_compute in Hin.
    destruct Hin as [<- | []]; eexists; reflexivity.
  - intros Hgate. vm_compute in Hgate. discriminate.
Defined.

Lemma ScreenResponse_storage_match_panics_witness :
  (ScreenResponse (C := toy) filters_all payload150).1
  = Panic NilMapAssignment.
Proof.
  apply (ScreenResponse_storage_match_panics (C := toy) filters_all payload150
           "k1"%string [StorageNode.mk "s1"%string b3]).
  - intros _ uncle Hin. apply list_elem_of_In in Hin.
    destruct Hin as [<- | [<- | []]]; eexists; reflexivity.
  - intros _. split; [simpl; lia |].
    intros trx Hin. apply list_elem_of_In in Hin. vm_compute in Hin.
    destruct Hin as [<- | [<- | [<- | []]]]; eexists; reflexivity.
  - intros _. split; [simpl; lia |].
    intros receipt Hin. apply list_elem_of_In in Hin. vm_compute in Hin.
    destruct Hin as [<- | [<- | []]]; eexists; reflexivity.
  - reflexivity.
  - vm_compute. reflexivity.
  - reflexivity.
Defined.

Lemma filterState_range_order_irrelevant_witness :
  ∃ m' : gmap string bytes,
    filterState_range (C := toy) ["k1"%string; "k2"%string] false
      (reverse (map_to_list (StateNodes (C := toy) payload150)))
      store_state_made
    = (Val tt,
       with_response (set_StateNodesRlp (C := toy) (Some m')) store_state_made) ∧
    m' !! "k1"%string = Some b1 ∧
    m' !! "k2"%string = None.
Proof.
  destruct (filterState_range_order_irrelevant (C := toy)
              ["k1"%string; "k2"%string] false
              (StateNodes (C := toy) payload150)
              (reverse (map_to_list (StateNodes (C := toy) payload150)))
              store_state_made ∅
              ltac:(apply reverse_Permutation) ltac:(reflexivity))
    as (m' & Hrun & _ & Hlookup).
  exists m'. split; [exact Hrun |].
  split; rewrite Hlookup; vm_compute; reflexivity.
Defined.


Lemma filterStorage_on_made_map_witness :
  ∃ (m' : gmap string (gmap string bytes)) (inner : gmap string bytes),
    filterStorage (C := toy) store_made
      = (Val None,
         with_response (set_StorageNodesRlp (C := toy) (Some m')) store_made) ∧
    m' !! "k1"%string = Some inner ∧
    inner !! "s1"%string = Some b3 ∧
    inner !! "s2"%string = Some b2.
Proof.
  destruct (filterStorage_on_made_map (C := toy) store_made ∅
              ltac:(reflexivity) ltac:(reflexivity))
    as (m' & Hrun & Hin & _).
  destruct (Hin "k1"%string
              [StorageNode.mk "s1"%string b1; StorageNode.mk "s2"%string b2;
               StorageNode.mk "s1"%string b3]
              ltac:(vm_compute; reflexivity) ltac:(left; reflexivity))
    as (inner & Hinner & _ & Hlast).
  exists m', inner. split; [exact Hrun |]. split; [exact Hinner |]. split.
  - apply (Hlast [StorageNode.mk "s1"%string b1; StorageNode.mk "s2"%string b2]
             (StorageNode.mk "s1"%string b3) []);
      [reflexivity | apply not_elem_of_nil | left; reflexivity].
  - apply (Hlast [StorageNode.mk "s1"%string b1]
             (StorageNode.mk "s2"%string b2) [StorageNode.mk "s1"%string b3]);
      [reflexivity | | left; reflexivity].
    simpl. intros Hin'. apply list_elem_of_singleton in Hin'. discriminate.
Defined.

Lemma ScreenResponse_empty_filter_returns_all_witness :
  ∃ r,
    (ScreenResponse (C := toy) filters_open payload150).1
      = Val (Some r, None) ∧
    encodings toy_encode [Some b1; Some b2; Some b3] (TransactionsRlp r) ∧
    encodings toy_encode [Some b1; Some b2] (ReceiptsRlp r).
Proof.
  destruct (ScreenResponse (C := toy) filters_open payload150)
    as [[[[r|] [e|]]|p] s'] eqn:Hrun;
    try (vm_compute in Hrun; discriminate).
  exists r. split; [reflexivity |].
  destruct (ScreenResponse_empty_filter_returns_all (C := toy) _ _ _ _ Hrun)
    as [Ht Hr].
  split.
  - apply (Ht ltac:(reflexivity)); reflexivity.
  - apply (Hr ltac:(reflexivity)); reflexivity.
Defined.


